(** * LaserTrainer: calibration, laser detection, scoring and round state machine

    A shallow embedding of the [LaserTrainer] React component
    (corner ordering and [lockTarget], the SHOOT-mode pixel scan of
    [processFrame], the scoring of [handleShot], and the mode / round /
    timer logic), followed by the properties established about it.

    Conventions.
    - JavaScript numbers that hold pixel samples, indices and millisecond
      clocks are integers ([Z], samples in [N]).  Coordinates are carried
      by their rational values ([Q]: every finite number is one), and
      comparisons of them are exact.  Where the component computes with
      coordinates (the corner sums of [lockTarget], the distance of the
      hit test, the score of [handleShot]) the arithmetic is that of
      JavaScript numbers, IEEE 754 binary64 rounded to nearest, ties to
      even: the operations of [SpecFloat] at precision 53, applied to the
      binary64 value [b64] of each coordinate.
    - React state is an explicit record; every handler is a function on it.
      Timers ([setTimeout]) are part of the state: they carry the time at
      which they become due and, for the round-completion timer, the shot
      list captured by the closure.
    - Events (animation frames, timer callbacks, user actions) are taken
      one at a time; a handler sees the state of the latest render and
      reads the clock ([Date.now()]) once, as the [now] it is given.
    - The OpenCV entry points used by the component are an interface
      ([CvLib]); the component's logic is parametric in it. *)

From Stdlib Require Import ZArith QArith Qround Reals Qreals Lia Lra List Bool
  Permutation SpecFloat.
From Stdlib Require Floats.
Import ListNotations.

Set Implicit Arguments.

(* ================================================================== *)
(** * Part I. The embedding *)
(* ================================================================== *)

(** ** Points and shots *)

Record Point : Type := mkPoint { px : Q; py : Q }.

(** Modelled from the spec: the declarations of [Shot] and [RoundHistory]
    in [../types] are not among the sources; the fields are the ones
    [handleShot] and [finishRound] write (logical point, score, acceptance
    time; round number, total score, shots).  [id] is the decimal
    rendering of [timestamp] and [timeString] its locale rendering; both
    are functions of [timestamp] and are not kept separately. *)
Record Shot : Type := mkShot {
  shot_x : Q;
  shot_y : Q;
  score : Z;
  timestamp : Z;
  roundId : Z
}.

(** An entry of [history]; its [timestamp] string (the locale time of
    sealing) is not kept. *)
Record RoundHistory : Type := mkRound {
  roundNumber : Z;
  totalScore : Z;
  shots : list Shot
}.

(** ** JavaScript numbers

    [spec_float] at precision 53 and exponent bound 1024 is the binary64
    format; [SFadd], [SFsub], [SFmul], [SFdiv] and [SFsqrt] are its
    correctly rounded operations and [SFltb] its [<] (false on NaN). *)

Definition fadd : spec_float -> spec_float -> spec_float := SFadd 53 1024.
Definition fsub : spec_float -> spec_float -> spec_float := SFsub 53 1024.
Definition fmul : spec_float -> spec_float -> spec_float := SFmul 53 1024.
Definition fdiv : spec_float -> spec_float -> spec_float := SFdiv 53 1024.
Definition fsqrt : spec_float -> spec_float := SFsqrt 53 1024.
Definition flt : spec_float -> spec_float -> bool := SFltb.

(** The binary64 value of a rational: the quotient of numerator by
    denominator, rounded once.  A rational that is a binary64 number is
    its own value. *)
Definition b64 (q : Q) : spec_float :=
  match Qnum q with
  | Z0 => S754_zero false
  | Zpos n => fdiv (S754_finite false n 0) (S754_finite false (Qden q) 0)
  | Zneg n => fdiv (S754_finite true n 0) (S754_finite false (Qden q) 0)
  end.

(** [Math.pow(v, 2)]: the square, rounded once. *)
Definition pow2 (v : spec_float) : spec_float := fmul v v.

(** [Math.floor(v)] of a finite [v], as an integer: the floor of
    [+/- m * 2^e]. *)
Definition floorZ (v : spec_float) : Z :=
  match v with
  | S754_finite s m e => Z.shiftl (if s then Zneg m else Zpos m) e
  | _ => 0%Z
  end.

(** ** ShotScorer: the scoring lines of [handleShot] *)

(** [const cx = 250, cy = 350], and the literals [250] and [10]. *)
Definition cx : spec_float := Eval vm_compute in b64 250.
Definition cy : spec_float := Eval vm_compute in b64 350.
Definition n250 : spec_float := Eval vm_compute in b64 250.
Definition n10 : spec_float := Eval vm_compute in b64 10.

(** [dist = Math.sqrt(Math.pow(tx - cx, 2) + Math.pow(ty - cy, 2))] *)
Definition dist (tx ty : Q) : spec_float :=
  fsqrt (fadd (pow2 (fsub (b64 tx) cx)) (pow2 (fsub (b64 ty) cy))).

(** [(dist / 250) * 10] *)
Definition tenths (tx ty : Q) : spec_float :=
  fmul (fdiv (dist tx ty) n250) n10.

(** [rawScore = 10 - Math.floor((dist / 250) * 10)], then
    [Math.max(0, Math.min(10, rawScore))].  The quotient is a sum of
    squares taken through a square root and two positive factors: it is
    never NaN and never negative ([tenths_nonneg] below).  When it is
    [Infinity], [rawScore] is [-Infinity] and the clamp gives 0.
    Otherwise its floor is an integer and the clamp is taken on
    integers (the subtraction would round an integer beyond [2^53],
    which the clamp to [0..10] hides). *)
Definition shotScore (tx ty : Q) : Z :=
  match tenths tx ty with
  | S754_nan => 0%Z
  | S754_infinity s => if s then 10%Z else 0%Z
  | v => Z.max 0 (Z.min 10 (10 - floorZ v))
  end.

(** ** Comparisons on rationals *)

Definition Qltb (a b : Q) : bool :=
  match a ?= b with Lt => true | _ => false end.

Definition Qleb (a b : Q) : bool :=
  match a ?= b with Gt => false | _ => true end.

(** ** CornerOrderer: the corner sort of [lockTarget] *)

(** [pts = finalQuad.map(p => ({...p, sum: p.x + p.y, diff: p.y - p.x}))]:
    the two derived fields are functions of the point. *)
Definition psum (p : Point) : spec_float := fadd (b64 (px p)) (b64 (py p)).
Definition pdiff (p : Point) : spec_float := fsub (b64 (py p)) (b64 (px p)).

(** [pts.reduce((prev, curr) => better(curr, prev) ? curr : prev, init)] *)
Definition reduce_pick (better : Point -> Point -> bool)
  (pts : list Point) (init : Point) : Point :=
  fold_left (fun prev curr => if better curr prev then curr else prev) pts init.

Record Corners : Type := mkCorners {
  tl : Point; tr : Point; br : Point; bl : Point
}.

(** The four [reduce] calls, each started from [pts[0]].  On an empty
    array [pts[0]] is [undefined] and reading [tl.x] throws: [None]. *)
Definition orderCorners (finalQuad : list Point) : option Corners :=
  match finalQuad with
  | [] => None
  | p0 :: _ =>
      Some {| tl := reduce_pick (fun curr prev => flt (psum curr) (psum prev))
                      finalQuad p0;
              br := reduce_pick (fun curr prev => flt (psum prev) (psum curr))
                      finalQuad p0;
              tr := reduce_pick (fun curr prev => flt (pdiff curr) (pdiff prev))
                      finalQuad p0;
              bl := reduce_pick (fun curr prev => flt (pdiff prev) (pdiff curr))
                      finalQuad p0 |}
  end.

(** ** LaserPointDetector: the SHOOT-mode scan of [processFrame] *)

(** [data[i]] on the RGBA byte buffer; [None] is JavaScript's [undefined]
    for an index outside the array. *)
Definition sample (data : list N) (i : Z) : option Z :=
  if (i <? 0)%Z then None
  else option_map Z.of_N (nth_error data (Z.to_nat i)).

Definition ratio : Q := 3 # 2.

(** [r > c * 1.5]; a comparison with [undefined * 1.5 = NaN] is false. *)
Definition dominates (r : Z) (c : option Z) : bool :=
  match c with
  | Some c => Qltb (inject_Z c * ratio) (inject_Z r)
  | None => false
  end.

(** [r > settings.threshold && r > (g * 1.5) && r > (b * 1.5)] *)
Definition qualifies (threshold r : Z) (g b : option Z) : bool :=
  (threshold <? r)%Z && dominates r g && dominates r b.

(** Loop state: [(maxVal, maxIdx)]. *)
Definition scan_step (threshold : Z) (data : list N) (i : Z)
  (st : Z * Z) : Z * Z :=
  match sample data i with
  | Some r =>
      if qualifies threshold r (sample data (i + 1)) (sample data (i + 2))
      then if (fst st <? r)%Z then (r, i) else st
      else st
  | None => st
  end.

(** [for (let i = 0; i < data.length; i += 4 * 2) { ... }] *)
Fixpoint scan_loop (fuel : nat) (threshold : Z) (data : list N) (i : Z)
  (st : Z * Z) : Z * Z :=
  match fuel with
  | O => st
  | S fuel' =>
      if (i <? Z.of_nat (length data))%Z
      then scan_loop fuel' threshold data (i + 4 * 2)
             (scan_step threshold data i st)
      else st
  end.

(** [maxVal = 0; maxIdx = -1] and the loop; the loop runs at most
    [data.length] times. *)
Definition scan (threshold : Z) (data : list N) : Z * Z :=
  scan_loop (length data) threshold data 0 (0, -1)%Z.

(** The winner's coordinates: [pixelIdx = maxIdx / 4],
    [x = pixelIdx % canvas.width], [y = Math.floor(pixelIdx / canvas.width)]
    ([maxIdx] is a multiple of 8 and the canvas width is positive: a frame
    whose [videoWidth] is 0 is skipped before this point). *)
Definition detectLaser (threshold width : Z) (data : list N)
  : option (Z * Z) :=
  let maxIdx := snd (scan threshold data) in
  if (maxIdx =? -1)%Z then None
  else
    let pixelIdx := (maxIdx / 4)%Z in
    Some ((pixelIdx mod width)%Z, (pixelIdx / width)%Z).

(** ** The OpenCV entry points used by the component *)

Local Open Scope Z_scope.

(** [cv.getPerspectiveTransform(srcMat, dstMat)] returns a matrix for any
    two 4-point arrays (the component stores the result unchecked);
    [cv.perspectiveTransform] on one integer pixel yields the mapped point
    read back from [data32F], or [None] when the call throws or the
    result is not a finite number (every comparison of the bounds test is
    then false). *)
Record CvLib : Type := mkCv {
  Mat : Type;
  getPerspectiveTransform : list Q -> list Q -> Mat;
  perspectiveTransform : Mat -> Z -> Z -> option (Q * Q)
}.

(** One contour of [cv.findContours] with what the SETUP loop reads of it:
    [cv.contourArea(cnt)] and the vertices of [cv.approxPolyDP]. *)
Record Contour : Type := mkContour {
  area : Q;
  approx : list Point
}.

(** One camera frame as [processFrame] sees it: the video size, the RGBA
    bytes of [getImageData] and, for AUTO setup, the contours of the frame
    ([None] when the OpenCV pipeline throws inside the [try]). *)
Record Frame : Type := mkFrame {
  width : Z;
  height : Z;
  data : list N;
  contours : option (list Contour)
}.

(** Modelled from the spec: the declaration of [AppMode] in [../types] is
    not among the sources; the session states are SETUP, SHOOT and
    ROUND_OVER, the three the component names. *)
Inductive AppMode : Type := SETUP | SHOOT | ROUND_OVER.

(** [setupType]: ['AUTO' | 'MANUAL']. *)
Inductive SetupType : Type := AUTO | MANUAL.

Definition AppMode_eqb (a b : AppMode) : bool :=
  match a, b with
  | SETUP, SETUP | SHOOT, SHOOT | ROUND_OVER, ROUND_OVER => true
  | _, _ => false
  end.

(** ** Component state *)

Section Session.
Variable cv : CvLib.

(** The [useState] cells and [useRef] cells of [LaserTrainer] that the
    logic reads, and the two kinds of pending [setTimeout]:
    [cooldownDue] is the time at which the cooldown effect's timer may
    fire (meaningful while [cooldownRemaining > 0]), and [finishTimers]
    the queue of scheduled [finishRound(updated)] calls, each with its due
    time and the captured [updated] array. *)
Record State : Type := mkState {
  mode : AppMode;
  setupType : SetupType;
  currentRoundShots : list Shot;
  history : list RoundHistory;
  threshold : Z;
  cooldownRemaining : Z;
  targetFound : bool;
  targetQuad : list Point;
  manualPoints : list Point;
  draggingIdx : option nat;
  transformMatrix : option (Mat cv);
  lastShotTimestamp : Z;
  canvasWidth : Z;
  canvasHeight : Z;
  cooldownDue : Z;
  finishTimers : list (Z * list Shot)
}.

Definition initialState : State := {|
  mode := SETUP;
  setupType := AUTO;
  currentRoundShots := [];
  history := [];
  threshold := 200;
  cooldownRemaining := 0;
  targetFound := false;
  targetQuad := [];
  manualPoints := [mkPoint 100 100; mkPoint 500 100;
                   mkPoint 500 400; mkPoint 100 400];
  draggingIdx := None;
  transformMatrix := None;
  lastShotTimestamp := 0;
  canvasWidth := 300;
  canvasHeight := 150;
  cooldownDue := 0;
  finishTimers := []
|}.

(** State setters. *)

Definition setMode (m : AppMode) (s : State) : State :=
  mkState m (setupType s) (currentRoundShots s) (history s) (threshold s)
    (cooldownRemaining s) (targetFound s) (targetQuad s) (manualPoints s)
    (draggingIdx s) (transformMatrix s) (lastShotTimestamp s)
    (canvasWidth s) (canvasHeight s) (cooldownDue s) (finishTimers s).

Definition setSetupType (t : SetupType) (s : State) : State :=
  mkState (mode s) t (currentRoundShots s) (history s) (threshold s)
    (cooldownRemaining s) (targetFound s) (targetQuad s) (manualPoints s)
    (draggingIdx s) (transformMatrix s) (lastShotTimestamp s)
    (canvasWidth s) (canvasHeight s) (cooldownDue s) (finishTimers s).

Definition setCurrentRoundShots (l : list Shot) (s : State) : State :=
  mkState (mode s) (setupType s) l (history s) (threshold s)
    (cooldownRemaining s) (targetFound s) (targetQuad s) (manualPoints s)
    (draggingIdx s) (transformMatrix s) (lastShotTimestamp s)
    (canvasWidth s) (canvasHeight s) (cooldownDue s) (finishTimers s).

Definition setHistory (h : list RoundHistory) (s : State) : State :=
  mkState (mode s) (setupType s) (currentRoundShots s) h (threshold s)
    (cooldownRemaining s) (targetFound s) (targetQuad s) (manualPoints s)
    (draggingIdx s) (transformMatrix s) (lastShotTimestamp s)
    (canvasWidth s) (canvasHeight s) (cooldownDue s) (finishTimers s).

Definition setThreshold (v : Z) (s : State) : State :=
  mkState (mode s) (setupType s) (currentRoundShots s) (history s) v
    (cooldownRemaining s) (targetFound s) (targetQuad s) (manualPoints s)
    (draggingIdx s) (transformMatrix s) (lastShotTimestamp s)
    (canvasWidth s) (canvasHeight s) (cooldownDue s) (finishTimers s).

Definition setTargetFound (b : bool) (s : State) : State :=
  mkState (mode s) (setupType s) (currentRoundShots s) (history s) (threshold s)
    (cooldownRemaining s) b (targetQuad s) (manualPoints s)
    (draggingIdx s) (transformMatrix s) (lastShotTimestamp s)
    (canvasWidth s) (canvasHeight s) (cooldownDue s) (finishTimers s).

Definition setTargetQuad (q : list Point) (s : State) : State :=
  mkState (mode s) (setupType s) (currentRoundShots s) (history s) (threshold s)
    (cooldownRemaining s) (targetFound s) q (manualPoints s)
    (draggingIdx s) (transformMatrix s) (lastShotTimestamp s)
    (canvasWidth s) (canvasHeight s) (cooldownDue s) (finishTimers s).

Definition setManualPoints (q : list Point) (s : State) : State :=
  mkState (mode s) (setupType s) (currentRoundShots s) (history s) (threshold s)
    (cooldownRemaining s) (targetFound s) (targetQuad s) q
    (draggingIdx s) (transformMatrix s) (lastShotTimestamp s)
    (canvasWidth s) (canvasHeight s) (cooldownDue s) (finishTimers s).

Definition setDraggingIdx (d : option nat) (s : State) : State :=
  mkState (mode s) (setupType s) (currentRoundShots s) (history s) (threshold s)
    (cooldownRemaining s) (targetFound s) (targetQuad s) (manualPoints s)
    d (transformMatrix s) (lastShotTimestamp s)
    (canvasWidth s) (canvasHeight s) (cooldownDue s) (finishTimers s).

Definition setTransformMatrix (m : option (Mat cv)) (s : State) : State :=
  mkState (mode s) (setupType s) (currentRoundShots s) (history s) (threshold s)
    (cooldownRemaining s) (targetFound s) (targetQuad s) (manualPoints s)
    (draggingIdx s) m (lastShotTimestamp s)
    (canvasWidth s) (canvasHeight s) (cooldownDue s) (finishTimers s).

Definition setLastShotTimestamp (t : Z) (s : State) : State :=
  mkState (mode s) (setupType s) (currentRoundShots s) (history s) (threshold s)
    (cooldownRemaining s) (targetFound s) (targetQuad s) (manualPoints s)
    (draggingIdx s) (transformMatrix s) t
    (canvasWidth s) (canvasHeight s) (cooldownDue s) (finishTimers s).

Definition setCanvasSize (w h : Z) (s : State) : State :=
  mkState (mode s) (setupType s) (currentRoundShots s) (history s) (threshold s)
    (cooldownRemaining s) (targetFound s) (targetQuad s) (manualPoints s)
    (draggingIdx s) (transformMatrix s) (lastShotTimestamp s)
    w h (cooldownDue s) (finishTimers s).

Definition setFinishTimers (q : list (Z * list Shot)) (s : State) : State :=
  mkState (mode s) (setupType s) (currentRoundShots s) (history s) (threshold s)
    (cooldownRemaining s) (targetFound s) (targetQuad s) (manualPoints s)
    (draggingIdx s) (transformMatrix s) (lastShotTimestamp s)
    (canvasWidth s) (canvasHeight s) (cooldownDue s) q.

(** [setCooldownRemaining(v)] issued at time [now], together with the
    cooldown effect that follows the render: the effect runs only when the
    value changed; its cleanup clears the old timer and, when the new
    value is positive, a timer of 1000 ms is started. *)
Definition setCooldownRemaining (now v : Z) (s : State) : State :=
  if v =? cooldownRemaining s then s
  else
    mkState (mode s) (setupType s) (currentRoundShots s) (history s)
      (threshold s) v (targetFound s) (targetQuad s) (manualPoints s)
      (draggingIdx s) (transformMatrix s) (lastShotTimestamp s)
      (canvasWidth s) (canvasHeight s)
      (if 0 <? v then now + 1000 else cooldownDue s) (finishTimers s).

(** ** Handlers *)

(** [newPoints[i] = v] on a copy of the array.  The index is the one
    [findIndex] returned for the same four handles, so it is inside the
    array; an index outside changes nothing here. *)
Fixpoint set_nth {A : Type} (i : nat) (v : A) (l : list A) : list A :=
  match l, i with
  | [], _ => []
  | _ :: t, O => v :: t
  | h :: t, S i' => h :: set_nth i' v t
  end.

(** [manualPointsRef.current.findIndex(p => ...)] *)
Fixpoint findIndex {A : Type} (f : A -> bool) (l : list A) : option nat :=
  match l with
  | [] => None
  | h :: t => if f h then Some O else option_map S (findIndex f t)
  end.

(** [Math.sqrt(Math.pow(p.x - x, 2) + Math.pow(p.y - y, 2))] *)
Definition handleDist (x y : Q) (p : Point) : spec_float :=
  fsqrt (fadd (pow2 (fsub (b64 (px p)) (b64 x)))
              (pow2 (fsub (b64 (py p)) (b64 y)))).

(** [dist < hitRadius] *)
Definition hit (x y hitRadius : Q) (p : Point) : bool :=
  flt (handleDist x y p) (b64 hitRadius).

Definition handlePointerDown (x y hitRadius : Q) (s : State) : State :=
  match mode s, setupType s with
  | SETUP, MANUAL =>
      match findIndex (hit x y hitRadius) (manualPoints s) with
      | Some clickedIdx => setDraggingIdx (Some clickedIdx) s
      | None => s
      end
  | _, _ => s
  end.

Definition Qmax (a b : Q) : Q := if Qltb a b then b else a.
Definition Qmin (a b : Q) : Q := if Qltb b a then b else a.

Definition handlePointerMove (x y : Q) (s : State) : State :=
  match draggingIdx s with
  | None => s
  | Some i =>
      setManualPoints
        (set_nth i
           (mkPoint (Qmax 0 (Qmin (inject_Z (canvasWidth s)) x))
                    (Qmax 0 (Qmin (inject_Z (canvasHeight s)) y)))
           (manualPoints s)) s
  end.

Definition handlePointerUp (s : State) : State := setDraggingIdx None s.

(** The AUTO-setup contour loop of [processFrame]: state
    [(maxArea, bestApprox)]. *)
Definition contour_step (w h : Z) (st : Q * option (list Point))
  (c : Contour) : Q * option (list Point) :=
  if Qltb (inject_Z w * inject_Z h * (2 # 100))%Q (area c)
  then if (length (approx c) =? 4)%nat
       then if Qltb (fst st) (area c) then (area c, Some (approx c)) else st
       else st
  else st.

Definition bestApprox (w h : Z) (cs : list Contour) : option (list Point) :=
  snd (fold_left (contour_step w h) cs (0%Q, None)).

(** [finishRound(shots)] *)
Definition finishRound (shots0 : list Shot) (s : State) : State :=
  let total := fold_left (fun a b => a + score b) shots0 0 in
  let prev := history s in
  setMode ROUND_OVER
    (setHistory
       ({| roundNumber := Z.of_nat (length prev) + 1;
           totalScore := total;
           shots := shots0 |} :: prev) s).

(** [handleShot(tx, ty)] run at time [now] ([Date.now()]). *)
Definition handleShot (now : Z) (tx ty : Q) (s : State) : State :=
  if now - lastShotTimestamp s <? 500 then s
  else
    let s1 := setLastShotTimestamp now s in
    let s2 := setCooldownRemaining now 3 s1 in
    let newShot := {| shot_x := tx; shot_y := ty;
                      score := shotScore tx ty;
                      timestamp := now;
                      roundId := Z.of_nat (length (history s)) + 1 |} in
    let updated := currentRoundShots s ++ [newShot] in
    let s3 := setCurrentRoundShots updated s2 in
    if (5 <=? length updated)%nat
    then setFinishTimers (finishTimers s3 ++ [(now + 1500, updated)]) s3
    else s3.

(** [tx >= -20 && tx <= 520 && ty >= -20 && ty <= 720] *)
Definition inBounds (tx ty : Q) : bool :=
  Qleb (-20) tx && Qleb tx 520 && Qleb (-20) ty && Qleb ty 720.

(** [processFrame], one turn of the animation loop at time [now]. *)
Definition processFrame (now : Z) (fr : Frame) (s : State) : State :=
  (* match the canvas to the video; manual handles reset on resize *)
  let s0 :=
    if (canvasWidth s =? width fr) && (canvasHeight s =? height fr) then s
    else
      let w := inject_Z (width fr) in
      let h := inject_Z (height fr) in
      setManualPoints
        [mkPoint (w * (2 # 10)) (h * (2 # 10));
         mkPoint (w * (8 # 10)) (h * (2 # 10));
         mkPoint (w * (8 # 10)) (h * (8 # 10));
         mkPoint (w * (2 # 10)) (h * (8 # 10))]
        (setCanvasSize (width fr) (height fr) s) in
  (* SETUP MODE *)
  let s1 :=
    match mode s, setupType s, contours fr with
    | SETUP, AUTO, Some cs =>
        match bestApprox (width fr) (height fr) cs with
        | Some points => setTargetQuad points (setTargetFound true s0)
        | None => setTargetFound false s0
        end
    | _, _, _ => s0
    end in
  (* SHOOT MODE *)
  match mode s, transformMatrix s with
  | SHOOT, Some M =>
      if cooldownRemaining s =? 0 then
        if now - lastShotTimestamp s <? 500 then s1
        else
          match detectLaser (threshold s) (width fr) (data fr) with
          | Some (x, y) =>
              match perspectiveTransform cv M x y with
              | Some (tx, ty) =>
                  if inBounds tx ty then handleShot now tx ty s1 else s1
              | None => s1
              end
          | None => s1
          end
      else s1
  | _, _ => s1
  end.

(** [lockTarget] *)
Definition lockTarget (s : State) : State :=
  let finalQuad :=
    match setupType s with
    | AUTO =>
        if negb (targetFound s) || negb (length (targetQuad s) =? 4)%nat
        then None else Some (targetQuad s)
    | MANUAL => Some (manualPoints s)
    end in
  match finalQuad with
  | None => s
  | Some q =>
      match orderCorners q with
      | None => s
      | Some c =>
          let srcMat := [px (tl c); py (tl c); px (tr c); py (tr c);
                         px (br c); py (br c); px (bl c); py (bl c)] in
          let dstMat := [0; 0; 500; 0; 500; 700; 0; 700]%Q in
          setCurrentRoundShots []
            (setMode SHOOT
               (setTransformMatrix
                  (Some (getPerspectiveTransform cv srcMat dstMat)) s))
      end
  end.

(** [startNewRound] *)
Definition startNewRound (now : Z) (s : State) : State :=
  setCurrentRoundShots [] (setCooldownRemaining now 0 (setMode SHOOT s)).

(** [resetToSetup] *)
Definition resetToSetup (now : Z) (s : State) : State :=
  setCooldownRemaining now 0
    (setCurrentRoundShots [] (setTargetFound false (setMode SETUP s))).

(** The cooldown timer's callback [setCooldownRemaining(prev => prev - 1)],
    when the timer is pending and due. *)
Definition cooldownTimer (now : Z) (s : State) : State :=
  if (0 <? cooldownRemaining s) && (cooldownDue s <=? now)
  then setCooldownRemaining now (cooldownRemaining s - 1) s
  else s.

(** The oldest pending [setTimeout(() => finishRound(updated), 1500)],
    when it is due. *)
Definition finishTimer (now : Z) (s : State) : State :=
  match finishTimers s with
  | (due, updated) :: rest =>
      if due <=? now then finishRound updated (setFinishTimers rest s) else s
  | [] => s
  end.

(** ** Events and runs *)

(** What can happen to the component, each at a time [now] of the
    wall clock: an animation frame, one of the two timers, or a user
    action.  The user actions are those the rendered controls offer. *)
Inductive Event : Type :=
| AnimationFrame (fr : Frame)
| CooldownTimeout
| FinishTimeout
| ClickLock
| ClickNextRound
| ClickReset
| ClickSetupType
| SlideThreshold (v : Z)
| PointerDown (x y hitRadius : Q)
| PointerMove (x y : Q)
| PointerUp.

(** One event.  The guards are the conditions under which the control is
    rendered: the lock button, the setup-type toggle and the sensitivity
    slider only in SETUP, the reset button outside SETUP, the
    next-round button only on the ROUND_OVER overlay. *)
Definition step (s : State) (te : Z * Event) : State :=
  let (now, e) := te in
  match e with
  | AnimationFrame fr => processFrame now fr s
  | CooldownTimeout => cooldownTimer now s
  | FinishTimeout => finishTimer now s
  | ClickLock =>
      if AppMode_eqb (mode s) SETUP then lockTarget s else s
  | ClickNextRound =>
      if AppMode_eqb (mode s) ROUND_OVER then startNewRound now s else s
  | ClickReset =>
      if AppMode_eqb (mode s) SETUP then s else resetToSetup now s
  | ClickSetupType =>
      if AppMode_eqb (mode s) SETUP
      then setSetupType (match setupType s with AUTO => MANUAL
                                              | MANUAL => AUTO end) s
      else s
  | SlideThreshold v =>
      if AppMode_eqb (mode s) SETUP then setThreshold v s else s
  | PointerDown x y r => handlePointerDown x y r s
  | PointerMove x y => handlePointerMove x y s
  | PointerUp => handlePointerUp s
  end.

Definition run (s : State) (evs : list (Z * Event)) : State :=
  fold_left step evs s.

Definition reachable (s : State) : Prop :=
  exists evs, s = run initialState evs.

(** A frame is accepted as a shot when it appends one shot to the round
    in progress. *)
Definition accepted (s : State) (now : Z) (fr : Frame) : Prop :=
  exists sh,
    currentRoundShots (processFrame now fr s) = currentRoundShots s ++ [sh].

End Session.

(** ** A reference implementation of the OpenCV interface

    The exact projective transform over the rationals (square-to-quad
    maps composed through the adjugate), used to run the component on
    concrete frames.  It is not part of the repository; every general
    statement below holds for any [CvLib]. *)

Module RefCv.
Local Open Scope Q_scope.

Definition M3 : Type := list Q.

Definition squareToQuad (q : list Q) : M3 :=
  match q with
  | [x0; y0; x1; y1; x2; y2; x3; y3] =>
      let dx1 := x1 - x2 in let dx2 := x3 - x2 in
      let dx3 := x0 - x1 + x2 - x3 in
      let dy1 := y1 - y2 in let dy2 := y3 - y2 in
      let dy3 := y0 - y1 + y2 - y3 in
      let den := dx1 * dy2 - dx2 * dy1 in
      let g := (dx3 * dy2 - dx2 * dy3) / den in
      let h := (dx1 * dy3 - dx3 * dy1) / den in
      [x1 - x0 + g * x1; x3 - x0 + h * x3; x0;
       y1 - y0 + g * y1; y3 - y0 + h * y3; y0;
       g; h; 1]
  | _ => [0; 0; 0; 0; 0; 0; 0; 0; 1]
  end.

Definition adjugate (m : M3) : M3 :=
  match m with
  | [a; b; c; d; e; f; g; h; i] =>
      [e * i - f * h; c * h - b * i; b * f - c * e;
       f * g - d * i; a * i - c * g; c * d - a * f;
       d * h - e * g; b * g - a * h; a * e - b * d]
  | _ => m
  end.

Definition mul3 (m n : M3) : M3 :=
  match m, n with
  | [a; b; c; d; e; f; g; h; i], [a'; b'; c'; d'; e'; f'; g'; h'; i'] =>
      map Qred
      [a * a' + b * d' + c * g'; a * b' + b * e' + c * h'; a * c' + b * f' + c * i';
       d * a' + e * d' + f * g'; d * b' + e * e' + f * h'; d * c' + e * f' + f * i';
       g * a' + h * d' + i * g'; g * b' + h * e' + i * h'; g * c' + h * f' + i * i']
  | _, _ => m
  end.

Definition getPerspectiveTransform (src dst : list Q) : M3 :=
  mul3 (squareToQuad dst) (adjugate (squareToQuad src)).

Definition perspectiveTransform (m : M3) (x y : Z) : option (Q * Q) :=
  match m with
  | [a; b; c; d; e; f; g; h; i] =>
      let X := inject_Z x in let Y := inject_Z y in
      let w := g * X + h * Y + i in
      Some (Qred ((a * X + b * Y + c) / w), Qred ((d * X + e * Y + f) / w))
  | _ => None
  end.

Definition lib : CvLib := mkCv getPerspectiveTransform perspectiveTransform.

End RefCv.

(** Frames for the examples: [w * h] black pixels, one of them lit. *)
Definition pixel (r g b : N) : list N := [r; g; b; 255%N].

Definition pixels (n lit : nat) (p : list N) : list N :=
  flat_map (fun k => if (k =? lit)%nat then p else pixel 0 0 0) (seq 0 n).

Definition litFrame (w h : nat) (x y : nat) (p : list N) : Frame :=
  {| width := Z.of_nat w; height := Z.of_nat h;
     data := pixels (w * h) (y * w + x) p;
     contours := None |}.

(** ** Vocabulary of the properties *)

(** The score as the specification words it: [10 - floor (10 * d / 250)]
    clamped to [0..10], with [d] the Euclidean distance to [(250, 350)],
    over the real numbers. *)
Definition specDist (tx ty : R) : R :=
  sqrt ((tx - 250) * (tx - 250) + (ty - 350) * (ty - 350)).

Definition specScore (tx ty : R) : Z :=
  Z.max 0 (Z.min 10 (10 - Zfloor (10 * specDist tx ty / 250))).

(** The same value computed exactly on rational coordinates
    ([specScoreQ_correct] below): [floor (10 * sqrt s / 250)] is the
    integer square root of [floor (s / 625)]. *)
Definition specDist2Q (tx ty : Q) : Q := ((tx - 250) ^ 2 + (ty - 350) ^ 2)%Q.

Definition specScoreQ (tx ty : Q) : Z :=
  Z.max 0 (Z.min 10 (10 - Z.sqrt (Qfloor (specDist2Q tx ty / 625)))).

(** A binary64 value that is not NaN, and one that moreover carries the
    sign [s] ([false] for [+]). *)
Definition not_nan (v : spec_float) : Prop :=
  match v with S754_nan => False | _ => True end.

Definition signed (s : bool) (v : spec_float) : Prop :=
  match v with
  | S754_zero s' | S754_infinity s' | S754_finite s' _ _ => s' = s
  | S754_nan => False
  end.

(** What the claim calls argmin and argmax of a key over the corners,
    with the key as [lockTarget] computes it: [p] is the one corner whose
    key is below (above) the key of every other corner. *)
Definition least (f : Point -> spec_float) (l : list Point) (p : Point)
  : Prop :=
  In p l /\ forall q, In q l -> q <> p -> flt (f p) (f q) = true.

Definition greatest (f : Point -> spec_float) (l : list Point) (p : Point)
  : Prop :=
  In p l /\ forall q, In q l -> q <> p -> flt (f q) (f p) = true.

(** Twice the signed area of the triangle [a b c]. *)
Definition cross (a b c : Point) : Q :=
  ((px b - px a) * (py c - py a) - (py b - py a) * (px c - px a))%Q.

(** Four points that, taken in the order given, run around a strictly
    convex quadrilateral (every turn is to the same side). *)
Definition convex_in_order (q : list Point) : Prop :=
  match q with
  | [a; b; c; d] =>
      (0 < cross a b c /\ 0 < cross b c d /\
       0 < cross c d a /\ 0 < cross d a b)%Q \/
      (cross a b c < 0 /\ cross b c d < 0 /\
       cross c d a < 0 /\ cross d a b < 0)%Q
  | _ => False
  end.

Definition convex_quadrilateral (l : list Point) : Prop :=
  exists q, Permutation l q /\ convex_in_order q.

(** The channels of pixel number [p] (row-major) of an RGBA buffer. *)
Definition pixel_red (data : list N) (p : Z) : option Z := sample data (4 * p).
Definition pixel_green (data : list N) (p : Z) : option Z :=
  sample data (4 * p + 1).
Definition pixel_blue (data : list N) (p : Z) : option Z :=
  sample data (4 * p + 2).

(** A pixel qualifies: red above the brightness threshold and above 1.5
    times green and 1.5 times blue. *)
Definition laser_pixel (threshold : Z) (data : list N) (p : Z) : Prop :=
  exists r g b,
    pixel_red data p = Some r /\ pixel_green data p = Some g /\
    pixel_blue data p = Some b /\
    threshold < r /\
    (inject_Z g * (3 # 2) < inject_Z r)%Q /\
    (inject_Z b * (3 # 2) < inject_Z r)%Q.

(** The scan loop's test at byte offset [i], with the red value read there. *)
Definition hits (threshold : Z) (data : list N) (i r : Z) : Prop :=
  sample data i = Some r /\
  qualifies threshold r (sample data (i + 1)) (sample data (i + 2)) = true.

(** Invariant of the scan loop before the iteration at offset [i]: the
    state [(maxVal, maxIdx)] is the first strict maximum of the red value
    over the qualifying offsets examined so far. *)
Definition scanned (threshold : Z) (data : list N) (i : Z) (st : Z * Z)
  : Prop :=
  (snd st = -1 /\ fst st = 0 /\
   forall j r, 0 <= j < i -> j mod 8 = 0 -> ~ hits threshold data j r)
  \/
  (0 <= snd st < i /\ snd st mod 8 = 0 /\
   hits threshold data (snd st) (fst st) /\
   forall j r, 0 <= j < i -> j mod 8 = 0 -> hits threshold data j r ->
               r <= fst st /\ (j < snd st -> r < fst st)).

(** Sum of the scores of a list of shots. *)
Fixpoint sum_scores (l : list Shot) : Z :=
  match l with
  | [] => 0
  | sh :: t => score sh + sum_scores t
  end.

(** The numbers [n; n-1; ...; 1]. *)
Fixpoint countdown (n : nat) : list Z :=
  match n with
  | O => []
  | S n' => Z.of_nat n :: countdown n'
  end.

(** Time stamps that never run backwards, starting from [t]. *)
Fixpoint chronological (t : Z) (evs : list (Z * Event)) : Prop :=
  match evs with
  | [] => True
  | (t', _) :: rest => t <= t' /\ chronological t' rest
  end.

(** The time of the last event of a run that starts at [t]. *)
Definition end_time (t : Z) (evs : list (Z * Event)) : Z :=
  fold_left (fun _ te => fst te) evs t.

(** The two commands that zero the cooldown counter. *)
Definition zeroes_cooldown (e : Event) : bool :=
  match e with
  | ClickNextRound | ClickReset => true
  | _ => false
  end.

(** Three points on one line. *)
Definition collinear (a b c : Point) : Prop := (cross a b c == 0)%Q.

(** The fields of the state other than the calibration inputs and the
    canvas size agree. *)
Definition same_core {cv : CvLib} (s1 s : State cv) : Prop :=
  mode s1 = mode s /\ setupType s1 = setupType s /\
  currentRoundShots s1 = currentRoundShots s /\
  history s1 = history s /\ threshold s1 = threshold s /\
  cooldownRemaining s1 = cooldownRemaining s /\
  cooldownDue s1 = cooldownDue s /\
  transformMatrix s1 = transformMatrix s /\
  lastShotTimestamp s1 = lastShotTimestamp s /\
  finishTimers s1 = finishTimers s.

(** What holds in every state the component can reach: without a
    transform matrix the mode is SETUP and no round-completion timer is
    pending; there are four manual handles; and the history is numbered
    [n; ...; 1]. *)
Definition well_formed {cv : CvLib} (s : State cv) : Prop :=
  (transformMatrix s = None -> mode s = SETUP /\ finishTimers s = []) /\
  length (manualPoints s) = 4%nat /\
  map roundNumber (history s) = countdown (length (history s)).

(** Cooldown bookkeeping after a shot accepted at [t1], in a state whose
    latest event happened at [tl]: either the counter is still positive
    and its remaining timers cannot all have fired before [t1 + 3000], or
    it is zero and that time has passed. *)
Definition cooling {cv : CvLib} (t1 : Z) (s : State cv) (tl : Z) : Prop :=
  (0 < cooldownRemaining s /\
   t1 + 3000 <= cooldownDue s + 1000 * (cooldownRemaining s - 1))
  \/
  (cooldownRemaining s = 0 /\ t1 + 3000 <= tl).

(** ** Concrete runs used in the examples *)

Definition cvq : CvLib := RefCv.lib.

(** A 20 x 20 frame, all black, and one with a pure red pixel at (10, 10),
    the pixel that the calibration below maps to the target's centre. *)
Definition dark20 : Frame := litFrame 20 20 0 0 (pixel 0 0 0).
Definition laser20 : Frame := litFrame 20 20 10 10 (pixel 255 0 0).

(** First frame (the canvas takes the video's size and the manual handles
    are placed), switch to MANUAL setup, confirm the corners. *)
Definition calibrate : list (Z * Event) :=
  [(0, AnimationFrame dark20); (10, ClickSetupType); (20, ClickLock)].

Definition locked : State cvq := run (initialState cvq) calibrate.

Definition cooldown_ticks (t : Z) : list (Z * Event) :=
  [(t + 1000, CooldownTimeout); (t + 2000, CooldownTimeout);
   (t + 3000, CooldownTimeout)].

Definition shot_and_cooldown (t : Z) : list (Z * Event) :=
  (t, AnimationFrame laser20) :: cooldown_ticks t.

Definition four_shots : list (Z * Event) :=
  shot_and_cooldown 1000 ++ shot_and_cooldown 5000 ++
  shot_and_cooldown 9000 ++ shot_and_cooldown 13000.

Definition after_four : State cvq := run locked four_shots.

(** The fifth shot at 17000, then the reset button half a second later,
    one second before the round-completion timer is due. *)
Definition fifth_then_reset : State cvq :=
  run after_four [(17000, AnimationFrame laser20); (17500, ClickReset)].

(** Reset right after calibration. *)
Definition after_reset : State cvq := run locked [(30, ClickReset)].

(** Two manual handles dragged onto the diagonal through the other two. *)
Definition drag_to_line : list (Z * Event) :=
  [(0, AnimationFrame dark20); (10, ClickSetupType);
   (11, PointerDown 16 4 1); (12, PointerMove 8 8); (13, PointerUp);
   (14, PointerDown 4 16 1); (15, PointerMove 12 12); (16, PointerUp)].

Definition degenerate : State cvq := run (initialState cvq) drag_to_line.

(** The shot every accepted [laser20] frame records. *)
Definition centre_shot (t : Z) : Shot :=
  {| shot_x := 250; shot_y := 350; score := 10; timestamp := t; roundId := 1 |}.


(** The calibration rectangle of the manual handles, and a shuffle of it. *)
Definition rect : list Point :=
  [mkPoint 100 100; mkPoint 500 100; mkPoint 500 400; mkPoint 100 400].

Definition rect_shuffled : list Point :=
  [mkPoint 500 400; mkPoint 100 100; mkPoint 100 400; mkPoint 500 100].

(** The diamond: a square standing on a corner, read from two different
    starting vertices. *)
Definition diamond : list Point :=
  [mkPoint 1 0; mkPoint 2 1; mkPoint 1 2; mkPoint 0 1].

Definition diamond_rotated : list Point :=
  [mkPoint 0 1; mkPoint 1 0; mkPoint 2 1; mkPoint 1 2].


(** A convex quadrilateral whose first corner has [x + y = 1 + 2^-60],
    which rounds to the [x + y = 1] of its last corner; read from two
    different starting vertices. *)
Definition leaning : list Point :=
  [mkPoint 1 (1 # 2 ^ 60); mkPoint 3 1; mkPoint 2 (5 # 2); mkPoint 0 1].

Definition leaning_rotated : list Point :=
  [mkPoint 0 1; mkPoint 1 (1 # 2 ^ 60); mkPoint 3 1; mkPoint 2 (5 # 2)].


(** Two rows of four pixels: one whose only bright red pixel is pixel 1,
    and one where pixels 0 and 2 tie at red 250 next to a brighter
    pixel 1. *)
Definition odd_row : list N :=
  pixel 0 0 0 ++ pixel 255 0 0 ++ pixel 0 0 0 ++ pixel 0 0 0.

Definition tie_row : list N :=
  pixel 250 0 0 ++ pixel 255 0 0 ++ pixel 250 0 0 ++ pixel 0 0 0.

(** ** TargetBoard: the rings drawn on the target

    [Array.from({ length: 10 }, (_, i) => ({ score: 10 - i,
    radius: Math.floor(maxRadius * (i + 1) / 10) }))] *)

Record Ring : Type := mkRing { ring_score : Z; ring_radius : Z }.

Definition maxRadius : Z := 250.

Definition ring (i : Z) : Ring :=
  {| ring_score := 10 - i; ring_radius := (maxRadius * (i + 1)) / 10 |}.

Definition rings : list Ring := map (fun i => ring (Z.of_nat i)) (seq 0 10).

(** ** What the component displays

    The READY TO FIRE badge (and the ready beep):
    [mode === AppMode.SHOOT && cooldownRemaining === 0 &&
     currentRoundShots.length < 5]. *)
Definition readyToFire {cv : CvLib} (s : State cv) : bool :=
  AppMode_eqb (mode s) SHOOT && (cooldownRemaining s =? 0) &&
  (length (currentRoundShots s) <? 5)%nat.

(** The lock button is rendered in SETUP and is
    [disabled={!isCameraActive || (setupType === 'AUTO' && !targetFound)}];
    frames are only processed while the camera is active. *)
Definition lockEnabled {cv : CvLib} (s : State cv) : bool :=
  AppMode_eqb (mode s) SETUP &&
  negb (match setupType s with AUTO => negb (targetFound s) | MANUAL => false end).

(** The status bar's Total Score,
    [currentRoundShots.reduce((a, b) => a + b.score, 0)], and the overlay's
    Final Score, [history[0]?.totalScore]. *)
Definition displayedTotal {cv : CvLib} (s : State cv) : Z :=
  fold_left (fun a b => a + score b) (currentRoundShots s) 0.

Definition displayedFinal {cv : CvLib} (s : State cv) : option Z :=
  match history s with
  | [] => None
  | e :: _ => Some (totalScore e)
  end.

(** ** More concrete runs *)

(** The state after the fifth shot, before its timer fires, and after. *)
Definition after_five : State cvq :=
  run after_four [(17000, AnimationFrame laser20)].

Definition sealed : State cvq := run after_five [(18500, FinishTimeout)].

Definition sealed_entry : RoundHistory :=
  {| roundNumber := 1; totalScore := 50;
     shots := map centre_shot [1000; 5000; 9000; 13000; 17000] |}.

(** The state right after the first shot. *)
Definition after_first : State cvq :=
  run locked [(1000, AnimationFrame laser20)].

(** MANUAL setup on the 20 x 20 canvas, before the lock; and with the
    second handle grabbed. *)
Definition manual_setup : State cvq :=
  run (initialState cvq) [(0, AnimationFrame dark20); (10, ClickSetupType)].

Definition grabbed : State cvq :=
  run manual_setup [(11, PointerDown 16 4 1)].

(** A frame with three contours: a small quadrilateral, a triangle and a
    large quadrilateral (areas 50, 300 and 200; the floor on the 20 x 20
    canvas is 8). *)
Definition small_quad : Contour :=
  {| area := 50; approx := [mkPoint 2 2; mkPoint 9 2; mkPoint 9 9; mkPoint 2 9] |}.

Definition triangle : Contour :=
  {| area := 300; approx := [mkPoint 0 0; mkPoint 19 0; mkPoint 0 19] |}.

Definition large_quad : Contour :=
  {| area := 200;
     approx := [mkPoint 3 3; mkPoint 17 3; mkPoint 17 17; mkPoint 3 17] |}.

Definition contour_frame : Frame :=
  {| width := 20; height := 20; data := data dark20;
     contours := Some [small_quad; triangle; large_quad] |}.

(** ** Vocabulary of the further properties *)

(** The tolerance rectangle of the bounds test, as inequalities. *)
Definition in_tolerance (tx ty : Q) : Prop :=
  (-20 <= tx /\ tx <= 520 /\ -20 <= ty /\ ty <= 720)%Q.

(** A recorded shot is sound: it lies in the tolerance rectangle and its
    score is the score of its point, between 0 and 10. *)
Definition sound_shot (sh : Shot) : Prop :=
  in_tolerance (shot_x sh) (shot_y sh) /\
  score sh = shotScore (shot_x sh) (shot_y sh) /\
  0 <= score sh <= 10.

(** Shots in chronological order, each at least 500 ms after the one
    before. *)
Fixpoint spaced (l : list Shot) : Prop :=
  match l with
  | [] => True
  | a :: t => Forall (fun b => timestamp a + 500 <= timestamp b) t /\ spaced t
  end.

(** A sealed round is sound: at least five sound shots, and a total that
    is the sum of their scores. *)
Definition sound_round (e : RoundHistory) : Prop :=
  Forall sound_shot (shots e) /\ (5 <= length (shots e))%nat /\
  totalScore e = sum_scores (shots e).

(** What holds of the shots in every state the component can reach. *)
Definition sound_state {cv : CvLib} (s : State cv) : Prop :=
  Forall sound_shot (currentRoundShots s) /\
  spaced (currentRoundShots s) /\
  Forall (fun sh => timestamp sh <= lastShotTimestamp s) (currentRoundShots s) /\
  Forall (fun t => Forall sound_shot (snd t) /\ (5 <= length (snd t))%nat)
    (finishTimers s) /\
  Forall sound_round (history s) /\
  0 <= cooldownRemaining s <= 3 /\
  (targetFound s = true -> length (targetQuad s) = 4%nat) /\
  (mode s = SHOOT -> (5 <= length (currentRoundShots s))%nat ->
   exists due rest, finishTimers s = rest ++ [(due, currentRoundShots s)]).

(** A contour the AUTO-setup loop can take: area above the floor of 2% of
    the canvas and above zero, four vertices. *)
Definition candidate (w h : Z) (c : Contour) : Prop :=
  (inject_Z w * inject_Z h * (2 # 100) < area c)%Q /\ (0 < area c)%Q /\
  length (approx c) = 4%nat.

(** Invariant of the loop after the contours [done]: nothing taken and no
    candidate seen, or the candidate taken is the first of the largest. *)
Definition chosen (w h : Z) (done : list Contour)
  (st : Q * option (list Point)) : Prop :=
  (st = (0%Q, None) /\ forall c, In c done -> ~ candidate w h c)
  \/
  (exists pre c post,
     done = pre ++ c :: post /\ candidate w h c /\
     st = (area c, Some (approx c)) /\
     (forall c', In c' pre -> candidate w h c' -> (area c' < area c)%Q) /\
     (forall c', In c' post -> candidate w h c' -> (area c' <= area c)%Q)).

(** Every gate of the SHOOT branch of [processFrame] is open and the
    detected pixel maps to [(tx, ty)] inside the tolerance rectangle. *)
Definition fires {cv : CvLib} (s : State cv) (now : Z) (fr : Frame)
  (tx ty : Q) : Prop :=
  mode s = SHOOT /\ cooldownRemaining s = 0 /\
  500 <= now - lastShotTimestamp s /\
  exists M x y,
    transformMatrix s = Some M /\
    detectLaser (threshold s) (width fr) (data fr) = Some (x, y) /\
    perspectiveTransform cv M x y = Some (tx, ty) /\
    in_tolerance tx ty.

(** The shot [handleShot] builds. *)
Definition shot_of {cv : CvLib} (s : State cv) (now : Z) (tx ty : Q) : Shot :=
  {| shot_x := tx; shot_y := ty; score := shotScore tx ty;
     timestamp := now; roundId := Z.of_nat (length (history s)) + 1 |}.

(** Two states agree on every field but the manual handles. *)
Definition only_handles {cv : CvLib} (s1 s : State cv) : Prop :=
  mode s1 = mode s /\ setupType s1 = setupType s /\
  currentRoundShots s1 = currentRoundShots s /\
  history s1 = history s /\ threshold s1 = threshold s /\
  cooldownRemaining s1 = cooldownRemaining s /\
  targetFound s1 = targetFound s /\ targetQuad s1 = targetQuad s /\
  draggingIdx s1 = draggingIdx s /\
  transformMatrix s1 = transformMatrix s /\
  lastShotTimestamp s1 = lastShotTimestamp s /\
  canvasWidth s1 = canvasWidth s /\ canvasHeight s1 = canvasHeight s /\
  cooldownDue s1 = cooldownDue s /\
  finishTimers s1 = finishTimers s.

(** The calibration inputs of two states agree. *)
Definition same_setup {cv : CvLib} (s1 s : State cv) : Prop :=
  targetFound s1 = targetFound s /\ targetQuad s1 = targetQuad s.
(** ** Tables for the whole-number points of the logical plane *)

(** The integers [lo], [lo + 1], ..., [lo + n - 1]. *)
Definition zrange (lo : Z) (n : nat) : list Z :=
  map (fun k => lo + Z.of_nat k) (seq 0 n).

(** Equality of binary64 values, by representation. *)
Definition sf_eqb (a b : spec_float) : bool :=
  match a, b with
  | S754_zero s, S754_zero s' => Bool.eqb s s'
  | S754_infinity s, S754_infinity s' => Bool.eqb s s'
  | S754_nan, S754_nan => true
  | S754_finite s m e, S754_finite s' m' e' =>
      Bool.eqb s s' && Pos.eqb m m' && Z.eqb e e'
  | _, _ => false
  end.

(** [Math.pow(x - c, 2)] for a whole number [x], and the square of a
    whole number. *)
Definition sq_off (c : spec_float) (x : Z) : spec_float :=
  pow2 (fsub (b64 (inject_Z x)) c).

Definition sq_int (a : Z) : spec_float := pow2 (b64 (inject_Z a)).

(** The score lines of [handleShot] from the two squares on. *)
Definition score_of (u v : spec_float) : Z :=
  match fmul (fdiv (fsqrt (fadd u v)) n250) n10 with
  | S754_nan => 0
  | S754_infinity s => if s then 10 else 0
  | t => Z.max 0 (Z.min 10 (10 - floorZ t))
  end.

(** The specification's score from the exact squared distance. *)
Definition spec_of (n : Z) : Z := Z.max 0 (Z.min 10 (10 - Z.sqrt (n / 625))).

(** The squares of the offsets of [lo .. lo + n - 1] from [c'] are the
    squares of their absolute values. *)
Definition offsets_ok (c : spec_float) (c' lo : Z) (n : nat) : bool :=
  forallb (fun x => sf_eqb (sq_off c x) (sq_int (Z.abs (x - c')))) (zrange lo n).

(** The hardware's binary64 numbers ([PrimFloat]) evaluate the score
    lines quickly; [Prim2SF] reads a hardware number as a [spec_float],
    and the operations agree ([FloatAxioms]). *)
Definition p250 : PrimFloat.float := Eval vm_compute in FloatOps.SF2Prim n250.
Definition p10 : PrimFloat.float := Eval vm_compute in FloatOps.SF2Prim n10.

Definition pscore (pa pb : PrimFloat.float) : Z :=
  match FloatOps.Prim2SF
          (PrimFloat.mul
             (PrimFloat.div (PrimFloat.sqrt (PrimFloat.add pa pb)) p250) p10)
  with
  | S754_nan => 0
  | S754_infinity s => if s then 10 else 0
  | t => Z.max 0 (Z.min 10 (10 - floorZ t))
  end.

(** The squares of [0 .. 370] as hardware numbers, each with its exact
    value; the check that they are those squares; and the check that the
    computed score of offsets [(a, b)] is the specification's for every
    [b] of the table. *)
Definition psq (b : Z) : PrimFloat.float := FloatOps.SF2Prim (sq_int b).

Definition psq_table : list (PrimFloat.float * Z) :=
  map (fun b => (psq b, b * b)) (zrange 0 371).

Definition psq_ok : bool :=
  forallb (fun b => sf_eqb (FloatOps.Prim2SF (psq b)) (sq_int b))
    (zrange 0 371).

Definition row_ok (a : Z) : bool :=
  let pa := psq a in
  forallb (fun p => pscore pa (fst p) =? spec_of (a * a + snd p)) psq_table.

(* ================================================================== *)
(** * Part II. Properties *)
(* ================================================================== *)

(** ** The specification's score formula *)

Section FormulaFacts.
Local Open Scope R_scope.

Lemma specDist_nonneg (tx ty : R) : 0 <= specDist tx ty.
Proof. unfold specDist. apply sqrt_pos. Qed.

Lemma specScore_range (tx ty : R) : (0 <= specScore tx ty <= 10)%Z.
Proof. unfold specScore. lia. Qed.




(** The executable formula agrees with the real-valued one on rational
    coordinates. *)
Lemma Q2R_inject_Z (z : Z) : Q2R (inject_Z z) = IZR z.
Proof. unfold Q2R, inject_Z. simpl. field. Qed.

Lemma Q2R_specDist2Q (tx ty : Q) :
  Q2R (specDist2Q tx ty) =
  (Q2R tx - 250) * (Q2R tx - 250) + (Q2R ty - 350) * (Q2R ty - 350).
Proof.
  unfold specDist2Q. simpl Qpower.
  rewrite Q2R_plus, !Q2R_mult, !Q2R_minus.
  replace (Q2R 250) with 250 by (unfold Q2R; simpl; field).
  replace (Q2R 350) with 350 by (unfold Q2R; simpl; field).
  ring.
Qed.

Lemma floor_sqrt_bounds (s : R) (k : Z) :
  (0 <= k)%Z ->
  IZR k * IZR k <= s / 625 < (IZR k + 1) * (IZR k + 1) ->
  Zfloor (10 * sqrt s / 250) = k.
Proof.
  intros Hk [Hlo Hhi].
  assert (Hk' : 0 <= IZR k) by (apply IZR_le; exact Hk).
  assert (Hs : 0 <= s) by nra.
  apply Zfloor_eq. split.
  - assert (25 * IZR k <= sqrt s); [| lra].
    rewrite <- (sqrt_square (25 * IZR k)) by lra.
    apply sqrt_le_1_alt. nra.
  - assert (sqrt s < 25 * (IZR k + 1)); [| lra].
    rewrite <- (sqrt_square (25 * (IZR k + 1))) by lra.
    apply sqrt_lt_1_alt. split; [exact Hs | nra].
Qed.

Lemma specScoreQ_correct (tx ty : Q) :
  specScore (Q2R tx) (Q2R ty) = specScoreQ tx ty.
Proof.
  unfold specScore, specScoreQ, specDist.
  rewrite <- Q2R_specDist2Q.
  set (q := specDist2Q tx ty).
  assert (Hq : (0 <= q)%Q).
  { subst q. unfold specDist2Q. simpl Qpower.
    apply Qle_trans with (0 + 0)%Q; [discriminate |].
    apply Qplus_le_compat.
    - generalize (tx - 250)%Q. intros [n d]. unfold Qle, Qmult; simpl. nia.
    - generalize (ty - 350)%Q. intros [n d]. unfold Qle, Qmult; simpl. nia. }
  set (n := Qfloor (q / 625)).
  assert (Hn : (0 <= n)%Z).
  { subst n. change 0%Z with (Qfloor 0). apply Qfloor_resp_le.
    apply Qle_shift_div_l; [reflexivity |]. now rewrite Qmult_0_l. }
  pose proof (Z.sqrt_spec n Hn) as [Hlo Hhi].
  set (k := Z.sqrt n) in *.
  assert (Hk : (0 <= k)%Z) by apply Z.sqrt_nonneg.
  assert (Hfl : IZR n <= Q2R q / 625 < IZR n + 1).
  { pose proof (Qfloor_le (q / 625)) as H1.
    pose proof (Qlt_floor (q / 625)) as H2.
    fold n in H1, H2.
    apply Qle_Rle in H1. apply Qlt_Rlt in H2.
    rewrite Q2R_inject_Z in H1, H2. rewrite plus_IZR in H2.
    assert (Hd : Q2R (q / 625) = Q2R q / 625).
    { unfold Qdiv. rewrite Q2R_mult. rewrite Q2R_inv by discriminate.
      replace (Q2R 625) with 625 by (unfold Q2R; simpl; field).
      reflexivity. }
    rewrite Hd in H1, H2. simpl in H2. lra. }
  rewrite (floor_sqrt_bounds (s := Q2R q) (k := k)); [reflexivity | exact Hk |].
  split.
  - apply Rle_trans with (IZR n); [| lra].
    rewrite <- mult_IZR. apply IZR_le. exact Hlo.
  - apply Rlt_le_trans with (IZR n + 1); [lra |].
    replace ((IZR k + 1) * (IZR k + 1)) with (IZR (Z.succ k * Z.succ k)).
    + rewrite <- plus_IZR. apply IZR_le. lia.
    + rewrite mult_IZR, succ_IZR. reflexivity.
Qed.

End FormulaFacts.

(** ** Signs of binary64 results

    Rounding keeps the sign it is given and never produces NaN. *)

Section NumberFacts.

Lemma iter_shr_1_nonneg (p : positive) (mrs : shr_record) :
  0 <= shr_m mrs -> 0 <= shr_m (iter_pos shr_1 p mrs).
Proof.
  assert (H1 : forall r, 0 <= shr_m r -> 0 <= shr_m (shr_1 r)).
  { intros [m r s] H. simpl in *. destruct m as [| [q | q |] | q]; simpl; lia. }
  revert mrs. induction p as [p IH | p IH |]; intros mrs H; simpl; auto.
Qed.

Lemma shr_fexp_nonneg (m e : Z) (l : location) :
  0 <= m -> 0 <= shr_m (fst (shr_fexp 53 1024 m e l)).
Proof.
  intros H. unfold shr_fexp, shr.
  assert (H0 : 0 <= shr_m (shr_record_of_loc m l))
    by (destruct l as [| []]; simpl; exact H).
  destruct (fexp 53 1024 (Zdigits2 m + e) - e); simpl;
    auto using iter_shr_1_nonneg.
Qed.

Lemma round_nearest_even_nonneg (m : Z) (l : location) :
  0 <= m -> 0 <= round_nearest_even m l.
Proof.
  intros H. unfold round_nearest_even.
  destruct l as [| []]; try lia. destruct (Z.even m); lia.
Qed.

Lemma binary_round_aux_signed (s : bool) (m e : Z) (l : location) :
  0 <= m -> signed s (binary_round_aux 53 1024 s m e l).
Proof.
  intros H. unfold binary_round_aux.
  pose proof (shr_fexp_nonneg e l H) as H1.
  destruct (shr_fexp 53 1024 m e l) as [mrs' e'].
  simpl fst in H1.
  pose proof (shr_fexp_nonneg e' loc_Exact
                (round_nearest_even_nonneg (loc_of_shr_record mrs') H1)) as H2.
  destruct (shr_fexp 53 1024
              (round_nearest_even (shr_m mrs') (loc_of_shr_record mrs')) e'
              loc_Exact) as [mrs'' e''].
  simpl fst in H2.
  destruct (shr_m mrs'') as [| p | p]; cbn.
  - reflexivity.
  - destruct (e'' <=? 971); reflexivity.
  - lia.
Qed.

Lemma binary_round_signed (s : bool) (m : positive) (e : Z) :
  signed s (binary_round 53 1024 s m e).
Proof.
  unfold binary_round.
  destruct (shl_align m e (fexp 53 1024 (Z.pos (digits2_pos m) + e)))
    as [mz ez].
  apply binary_round_aux_signed. lia.
Qed.

Lemma signed_not_nan (s : bool) (v : spec_float) : signed s v -> not_nan v.
Proof. destruct v; simpl; auto. Qed.

Lemma binary_normalize_not_nan (m e : Z) (sz : bool) :
  not_nan (binary_normalize 53 1024 m e sz).
Proof.
  unfold binary_normalize. destruct m as [| p | p]; [exact I | |];
    eapply signed_not_nan; apply binary_round_signed.
Qed.

Lemma fdiv_finite_signed (sx sy : bool) (mx my : positive) (ex ey : Z) :
  signed (xorb sx sy) (fdiv (S754_finite sx mx ex) (S754_finite sy my ey)).
Proof.
  unfold fdiv, SFdiv.
  destruct (SFdiv_core_binary 53 1024 (Z.pos mx) ex (Z.pos my) ey)
    as [[mz ez] lz] eqn:E.
  apply binary_round_aux_signed.
  unfold SFdiv_core_binary in E.
  set (m' := match (ex - ey - _) with Z.pos _ => _ | _ => _ end) in E.
  assert (Hm' : 0 <= m').
  { subst m'. destruct (ex - ey - _); try lia. apply Z.shiftl_nonneg. lia. }
  pose proof (Z.div_pos m' (Z.pos my) Hm' ltac:(lia)) as Hq.
  unfold Z.div in Hq.
  destruct (Z.div_eucl m' (Z.pos my)) as [q r]. injection E as <- _ _.
  exact Hq.
Qed.

Lemma b64_not_nan (q : Q) : not_nan (b64 q).
Proof.
  unfold b64. destruct (Qnum q); [exact I | |];
    eapply signed_not_nan; apply fdiv_finite_signed.
Qed.

Lemma fsub_finite_not_nan (a : spec_float) (s : bool) (m : positive) (e : Z) :
  not_nan a -> not_nan (fsub a (S754_finite s m e)).
Proof.
  destruct a as [sa | sa | | sa ma ea]; simpl; auto.
  intros _. apply binary_normalize_not_nan.
Qed.

Lemma pow2_nonneg (v : spec_float) : not_nan v -> signed false (pow2 v).
Proof.
  destruct v as [s | s | | s m e]; intros H.
  - now destruct s.
  - now destruct s.
  - destruct H.
  - unfold pow2, fmul, SFmul.
    assert (Hs : signed (xorb s s)
                   (binary_round_aux 53 1024 (xorb s s)
                      (Z.pos (m * m)) (e + e) loc_Exact))
      by (apply binary_round_aux_signed; lia).
    now destruct s.
Qed.

Lemma fadd_nonneg (a b : spec_float) :
  signed false a -> signed false b -> signed false (fadd a b).
Proof.
  destruct a as [sa | sa | | sa ma ea], b as [sb | sb | | sb mb eb];
    intros Ha Hb; simpl in Ha, Hb; try contradiction; subst;
    try reflexivity.
  unfold fadd, SFadd, binary_normalize.
  destruct (shl_align ma ea (Z.min ea eb)) as [xa ya].
  destruct (shl_align mb eb (Z.min ea eb)) as [xb yb].
  simpl. apply binary_round_signed.
Qed.

Lemma fsqrt_nonneg (a : spec_float) : signed false a -> signed false (fsqrt a).
Proof.
  destruct a as [sa | sa | | sa ma ea]; simpl; intros H; subst; simpl; auto.
  unfold SFsqrt_core_binary.
  set (m' := match _ with Z.pos _ => _ | Z0 => _ | Z.neg _ => _ end).
  pose proof (Z.sqrtrem_spec m') as Hs.
  assert (Hm' : 0 <= m').
  { subst m'. destruct (ea - _); try lia. apply Z.shiftl_nonneg. lia. }
  specialize (Hs Hm').
  destruct (Z.sqrtrem m') as [q r].
  apply binary_round_aux_signed. lia.
Qed.

Lemma fdiv_nonneg (a : spec_float) (m : positive) (e : Z) :
  signed false a -> signed false (fdiv a (S754_finite false m e)).
Proof.
  destruct a as [sa | sa | | sa ma ea]; intros H; simpl in H; subst;
    try exact H; try reflexivity.
  apply (fdiv_finite_signed false false).
Qed.

Lemma fmul_nonneg (a : spec_float) (m : positive) (e : Z) :
  signed false a -> signed false (fmul a (S754_finite false m e)).
Proof.
  destruct a as [sa | sa | | sa ma ea]; intros H; simpl in H; subst;
    try exact H; try reflexivity.
  unfold fmul, SFmul. change false with (xorb false false) at 1.
  apply binary_round_aux_signed. lia.
Qed.

(** The quotient [(dist / 250) * 10] of [handleShot] is never NaN and
    never negative: it is [+0], a positive number or [Infinity]. *)
Lemma tenths_nonneg (tx ty : Q) :
  match tenths tx ty with
  | S754_zero s | S754_infinity s | S754_finite s _ _ => s = false
  | S754_nan => False
  end.
Proof.
  change (signed false (tenths tx ty)).
  unfold tenths, dist.
  apply fmul_nonneg, fdiv_nonneg, fsqrt_nonneg, fadd_nonneg;
    apply pow2_nonneg, fsub_finite_not_nan, b64_not_nan.
Qed.

End NumberFacts.

(** ** ShotScorer *)

Lemma shotScore_range (tx ty : Q) : 0 <= shotScore tx ty <= 10.
Proof.
  unfold shotScore. destruct (tenths tx ty) as [s | [] | | s m e]; lia.
Qed.

(** *** The whole-number points of the tolerance rectangle *)

Lemma in_zrange (lo : Z) (n : nat) (z : Z) :
  lo <= z < lo + Z.of_nat n -> In z (zrange lo n).
Proof.
  intros H. unfold zrange. apply in_map_iff.
  exists (Z.to_nat (z - lo)). split; [lia |]. apply in_seq. lia.
Qed.

Lemma forallb_zrange (f : Z -> bool) (lo : Z) (n : nat) (z : Z) :
  forallb f (zrange lo n) = true -> lo <= z < lo + Z.of_nat n -> f z = true.
Proof.
  intros H Hz. rewrite forallb_forall in H. apply H. now apply in_zrange.
Qed.

Lemma sf_eqb_eq (a b : spec_float) : sf_eqb a b = true -> a = b.
Proof.
  destruct a, b; simpl; try discriminate; try reflexivity.
  - intros H. apply eqb_prop in H. congruence.
  - intros H. apply eqb_prop in H. congruence.
  - intros H. apply andb_prop in H as [H He]. apply andb_prop in H as [Hs Hm].
    apply eqb_prop in Hs. apply Pos.eqb_eq in Hm. apply Z.eqb_eq in He.
    congruence.
Qed.

(** The hardware evaluation of the score lines is the one of the model. *)
Lemma p250_ok : FloatOps.Prim2SF p250 = n250.
Proof. vm_compute. reflexivity. Qed.

Lemma p10_ok : FloatOps.Prim2SF p10 = n10.
Proof. vm_compute. reflexivity. Qed.

Lemma pscore_correct (pa pb : PrimFloat.float) :
  pscore pa pb = score_of (FloatOps.Prim2SF pa) (FloatOps.Prim2SF pb).
Proof.
  unfold pscore, score_of.
  rewrite FloatAxioms.mul_spec, FloatAxioms.div_spec, FloatAxioms.sqrt_spec,
    FloatAxioms.add_spec, p250_ok, p10_ok.
  reflexivity.
Qed.

(** The tables, by evaluation. *)
Lemma offsets_x : offsets_ok cx 250 (-20) 541 = true.
Proof. vm_cast_no_check (eq_refl true). Qed.

Lemma offsets_y : offsets_ok cy 350 (-20) 741 = true.
Proof. vm_cast_no_check (eq_refl true). Qed.

Lemma psq_table_ok : psq_ok = true.
Proof. vm_cast_no_check (eq_refl true). Qed.

Lemma rows_ok : forallb row_ok (zrange 0 271) = true.
Proof. vm_cast_no_check (eq_refl true). Qed.

Lemma offsets_spec (c : spec_float) (c' lo : Z) (n : nat) (x : Z) :
  offsets_ok c c' lo n = true -> lo <= x < lo + Z.of_nat n ->
  sq_off c x = sq_int (Z.abs (x - c')).
Proof.
  intros H Hx. apply sf_eqb_eq.
  exact (@forallb_zrange _ lo n x H Hx).
Qed.

Lemma psq_spec (b : Z) :
  0 <= b <= 370 -> FloatOps.Prim2SF (psq b) = sq_int b.
Proof.
  intros Hb. apply sf_eqb_eq.
  exact (@forallb_zrange _ 0 371 b psq_table_ok ltac:(lia)).
Qed.

Lemma rows_spec (a b : Z) :
  0 <= a <= 270 -> 0 <= b <= 370 ->
  score_of (sq_int a) (sq_int b) = spec_of (a * a + b * b).
Proof.
  intros Ha Hb.
  pose proof (@forallb_zrange row_ok 0 271 a rows_ok ltac:(lia)) as T.
  unfold row_ok in T. rewrite forallb_forall in T.
  specialize (T (psq b, b * b)).
  rewrite <- (psq_spec (b := a)), <- (psq_spec (b := b)) by lia.
  rewrite <- pscore_correct.
  apply Z.eqb_eq. apply T.
  unfold psq_table. apply in_map_iff.
  exists b. split; [reflexivity | apply in_zrange; lia].
Qed.

Lemma specScoreQ_int (x y : Z) :
  specScoreQ (inject_Z x) (inject_Z y) =
  spec_of (Z.abs (x - 250) * Z.abs (x - 250)
           + Z.abs (y - 350) * Z.abs (y - 350)).
Proof.
  unfold specScoreQ, spec_of, specDist2Q. do 4 f_equal.
  rewrite !Z.abs_square.
  set (n := (x - 250) * (x - 250) + (y - 350) * (y - 350)).
  assert (E : (((inject_Z x - 250) ^ 2 + (inject_Z y - 350) ^ 2) / 625
               == n # 625)%Q).
  { unfold Qeq, Qdiv, Qminus, Qplus, Qmult, Qinv, Qopp, Qpower,
      Qpower_positive, inject_Z; simpl.
    subst n. ring. }
  rewrite (Qfloor_comp _ _ E). reflexivity.
Qed.

(** On every whole-number point of the tolerance rectangle the score
    computed in binary64 is the score of the specification's formula. *)
Lemma shotScore_grid (x y : Z) :
  -20 <= x <= 520 -> -20 <= y <= 720 ->
  shotScore (inject_Z x) (inject_Z y) = specScore (IZR x) (IZR y).
Proof.
  intros Hx Hy.
  rewrite <- !Q2R_inject_Z, specScoreQ_correct, specScoreQ_int.
  rewrite <- rows_spec by lia.
  rewrite <- (@offsets_spec cx 250 (-20) 541 x offsets_x) by lia.
  rewrite <- (@offsets_spec cy 350 (-20) 741 y offsets_y) by lia.
  reflexivity.
Qed.



(** ** CornerOrderer *)

Section CornerFacts.
Local Open Scope Q_scope.

Lemma Qltb_lt (a b : Q) : Qltb a b = true <-> a < b.
Proof.
  unfold Qltb. rewrite Qlt_alt. destruct (a ?= b); split; congruence.
Qed.

Lemma Qltb_ge (a b : Q) : Qltb a b = false <-> b <= a.
Proof.
  unfold Qltb. rewrite Qle_alt.
  rewrite <- (Qcompare_antisym a b). destruct (a ?= b); simpl; split; congruence.
Qed.

Lemma Qleb_le (a b : Q) : Qleb a b = true <-> a <= b.
Proof.
  unfold Qleb. rewrite Qle_alt. destruct (a ?= b); split; congruence.
Qed.

Lemma flt_irrefl (a : spec_float) : flt a a = false.
Proof.
  unfold flt, SFltb, SFcompare.
  destruct a as [s | s | | s m e]; try reflexivity; try (now destruct s).
  destruct s; rewrite Z.compare_refl, Pos.compare_cont_refl; reflexivity.
Qed.

Lemma flt_asym (a b : spec_float) : flt a b = true -> flt b a = false.
Proof.
  unfold flt, SFltb, SFcompare.
  destruct a as [sa | sa | | sa ma ea], b as [sb | sb | | sb mb eb];
    try (destruct sa); try (destruct sb); try reflexivity; try discriminate;
    change (Pos.compare_cont Eq ma mb) with (Pos.compare ma mb);
    change (Pos.compare_cont Eq mb ma) with (Pos.compare mb ma);
    rewrite (Z.compare_antisym ea eb), (Pos.compare_antisym ma mb);
    destruct (ea ?= eb)%Z; simpl; try reflexivity; try discriminate;
    destruct (Pos.compare ma mb); simpl; try reflexivity; discriminate.
Qed.

Lemma Point_eq_dec (p q : Point) : {p = q} + {p <> q}.
Proof.
  decide equality; decide equality;
    first [apply Pos.eq_dec | apply Z.eq_dec].
Qed.

(** A [reduce] with [curr.key < prev.key] ends on the corner whose key is
    below every other key, wherever it starts and whatever the order. *)
Lemma reduce_least (f : Point -> spec_float) (l : list Point)
  (init p : Point) :
  least f (init :: l) p ->
  reduce_pick (fun curr prev => flt (f curr) (f prev)) l init = p.
Proof.
  unfold reduce_pick. revert init.
  induction l as [| a l IH]; intros init [Hin Hlt]; simpl fold_left.
  - destruct Hin as [-> | []]. reflexivity.
  - apply IH. split.
    + destruct (flt (f a) (f init)) eqn:E.
      * destruct Hin as [<- | [-> | Hin]]; [| now left | now right].
        exfalso.
        assert (Hne : a <> init)
          by (intros ->; rewrite flt_irrefl in E; discriminate).
        rewrite (flt_asym _ _ (Hlt a (or_intror (or_introl eq_refl)) Hne)) in E.
        discriminate.
      * destruct Hin as [<- | [-> | Hin]]; [now left | | now right].
        destruct (Point_eq_dec init p) as [-> | Hne]; [now left |].
        rewrite (Hlt init (or_introl eq_refl) Hne) in E. discriminate.
    + intros q Hq Hne. apply Hlt; [| exact Hne].
      destruct Hq as [<- | Hq]; [| now right; right].
      destruct (flt (f a) (f init)); [right; now left | now left].
Qed.

Lemma reduce_greatest (f : Point -> spec_float) (l : list Point)
  (init p : Point) :
  greatest f (init :: l) p ->
  reduce_pick (fun curr prev => flt (f prev) (f curr)) l init = p.
Proof.
  unfold reduce_pick. revert init.
  induction l as [| a l IH]; intros init [Hin Hgt]; simpl fold_left.
  - destruct Hin as [-> | []]. reflexivity.
  - apply IH. split.
    + destruct (flt (f init) (f a)) eqn:E.
      * destruct Hin as [<- | [-> | Hin]]; [| now left | now right].
        exfalso.
        assert (Hne : a <> init)
          by (intros ->; rewrite flt_irrefl in E; discriminate).
        rewrite (flt_asym _ _ (Hgt a (or_intror (or_introl eq_refl)) Hne)) in E.
        discriminate.
      * destruct Hin as [<- | [-> | Hin]]; [now left | | now right].
        destruct (Point_eq_dec init p) as [-> | Hne]; [now left |].
        rewrite (Hgt init (or_introl eq_refl) Hne) in E. discriminate.
    + intros q Hq Hne. apply Hgt; [| exact Hne].
      destruct Hq as [<- | Hq]; [| now right; right].
      destruct (flt (f init) (f a)); [right; now left | now left].
Qed.

Lemma least_perm (f : Point -> spec_float) (l l' : list Point) (p : Point) :
  Permutation l l' -> least f l p -> least f l' p.
Proof.
  intros HP [Hin Hlt]. split.
  - eapply Permutation_in; eauto.
  - intros q Hq. apply Hlt.
    eapply Permutation_in; [apply Permutation_sym; exact HP | exact Hq].
Qed.

Lemma greatest_perm (f : Point -> spec_float) (l l' : list Point) (p : Point) :
  Permutation l l' -> greatest f l p -> greatest f l' p.
Proof.
  intros HP [Hin Hgt]. split.
  - eapply Permutation_in; eauto.
  - intros q Hq. apply Hgt.
    eapply Permutation_in; [apply Permutation_sym; exact HP | exact Hq].
Qed.

Lemma least_head (f : Point -> spec_float) (p0 : Point) (t : list Point)
  (p : Point) :
  least f (p0 :: t) p -> least f (p0 :: p0 :: t) p.
Proof.
  intros [Hin Hlt]. split; [now right |].
  intros q [<- | Hq]; apply Hlt; [now left | exact Hq].
Qed.

Lemma greatest_head (f : Point -> spec_float) (p0 : Point) (t : list Point)
  (p : Point) :
  greatest f (p0 :: t) p -> greatest f (p0 :: p0 :: t) p.
Proof.
  intros [Hin Hgt]. split; [now right |].
  intros q [<- | Hq]; apply Hgt; [now left | exact Hq].
Qed.

(** The roles picked by [orderCorners] when each extreme key has a single
    corner. *)
Lemma orderCorners_roles (l : list Point) (a b c d : Point) :
  least psum l a -> greatest psum l b ->
  least pdiff l c -> greatest pdiff l d ->
  orderCorners l = Some {| tl := a; tr := c; br := b; bl := d |}.
Proof.
  intros Ha Hb Hc Hd.
  destruct l as [| p0 t]; [destruct Ha as [[] _] |].
  unfold orderCorners.
  rewrite (reduce_least (least_head Ha)), (reduce_greatest (greatest_head Hb)),
    (reduce_least (least_head Hc)), (reduce_greatest (greatest_head Hd)).
  reflexivity.
Qed.

Lemma orderCorners_some (l : list Point) :
  l <> [] -> exists c, orderCorners l = Some c.
Proof. destruct l; [congruence | intros _; eexists; reflexivity]. Qed.


(** C6 (as amended).  When each of the least and the greatest value of
    [x + y] and of [y - x], as [lockTarget] computes them, belongs to a
    single corner, every permutation of the corners is sorted into the
    same TL / TR / BR / BL assignment: those four corners. *)
Theorem orderCorners_permutation (l l' : list Point) (a b c d : Point) :
  Permutation l l' ->
  least psum l a -> greatest psum l b ->
  least pdiff l c -> greatest pdiff l d ->
  orderCorners l' = Some {| tl := a; tr := c; br := b; bl := d |} /\
  orderCorners l' = orderCorners l.
Proof.
  intros HP Ha Hb Hc Hd.
  rewrite (orderCorners_roles Ha Hb Hc Hd).
  assert (H : orderCorners l' = Some {| tl := a; tr := c; br := b; bl := d |}).
  { apply orderCorners_roles;
      first [now apply (least_perm HP) | now apply (greatest_perm HP)]. }
  split; exact H.
Qed.

(** A corner of a four-element list whose key is below (above) the keys
    of the three others, by evaluation. *)
Ltac single_extreme :=
  split; [simpl; tauto |];
  let q := fresh "q" in let Hq := fresh "Hq" in let Hne := fresh "Hne" in
  intros q Hq Hne; simpl in Hq;
  repeat match goal with
         | H : _ \/ _ |- _ => destruct H
         | H : False |- _ => destruct H
         end;
  subst; first [now elim Hne | vm_compute; reflexivity].

Lemma orderCorners_permutation_witness :
  Permutation rect rect_shuffled /\
  orderCorners rect_shuffled =
    Some {| tl := mkPoint 100 100; tr := mkPoint 500 100;
            br := mkPoint 500 400; bl := mkPoint 100 400 |} /\
  orderCorners rect_shuffled = orderCorners rect.
Proof.
  assert (HP : Permutation rect rect_shuffled).
  { unfold rect, rect_shuffled.
    apply Permutation_trans with
      [mkPoint 100 100; mkPoint 500 400; mkPoint 500 100; mkPoint 100 400].
    - apply perm_skip. apply perm_swap.
    - apply Permutation_trans with
        [mkPoint 500 400; mkPoint 100 100; mkPoint 500 100; mkPoint 100 400].
      + apply perm_swap.
      + do 2 apply perm_skip. apply perm_swap. }
  split; [exact HP |].
  apply (orderCorners_permutation HP); unfold rect; single_extreme.
Defined.

(** C6 as stated fails: the diamond is a convex quadrilateral, and its
    two readings (one a permutation of the other) get different TL and
    TR corners, because two vertices tie for the least [x + y].  The
    leaning quadrilateral is convex too and its exact values of [x + y]
    are all different, but two of them round to the same number. *)
Lemma orderCorners_diamond_differs :
  convex_quadrilateral diamond /\
  Permutation diamond diamond_rotated /\
  option_map tl (orderCorners diamond) = Some (mkPoint 1 0) /\
  option_map tl (orderCorners diamond_rotated) = Some (mkPoint 0 1) /\
  orderCorners diamond <> orderCorners diamond_rotated /\
  convex_quadrilateral leaning /\
  Permutation leaning leaning_rotated /\
  option_map tl (orderCorners leaning) = Some (mkPoint 1 (1 # 2 ^ 60)) /\
  option_map tl (orderCorners leaning_rotated) = Some (mkPoint 0 1).
Proof.
  assert (Hrot : forall (a b c d : Point),
             Permutation [a; b; c; d] [d; a; b; c]).
  { intros a b c d.
    change [d; a; b; c] with ([d] ++ [a; b; c]).
    change [a; b; c; d] with ([a; b; c] ++ [d]).
    apply Permutation_app_comm. }
  split; [| split; [| split; [| split; [| split; [| split; [| split; [| split]]]]]]].
  - exists diamond. split; [apply Permutation_refl |].
    left. vm_compute. repeat split; reflexivity.
  - apply Hrot.
  - vm_compute. reflexivity.
  - vm_compute. reflexivity.
  - vm_compute. intros H. discriminate H.
  - exists leaning. split; [apply Permutation_refl |].
    left. vm_compute. repeat split; reflexivity.
  - apply Hrot.
  - vm_compute. reflexivity.
  - vm_compute. reflexivity.
Qed.

End CornerFacts.

(** ** LaserPointDetector *)

Section DetectorFacts.
Variable threshold : Z.
Variable data : list N.

Local Abbreviation hitsD := (hits threshold data).
Local Abbreviation scannedD := (scanned threshold data).

Lemma sample_range (i v : Z) :
  sample data i = Some v -> 0 <= i < Z.of_nat (length data) /\ 0 <= v.
Proof.
  unfold sample. destruct (i <? 0) eqn:E; [discriminate |].
  apply Z.ltb_ge in E.
  destruct (nth_error data (Z.to_nat i)) as [n |] eqn:Hn; [| discriminate].
  intros [= <-].
  assert (Hlt : (Z.to_nat i < length data)%nat).
  { apply nth_error_Some. congruence. }
  lia.
Qed.

Lemma dominates_spec (r : Z) (c : option Z) :
  dominates r c = true <->
  exists v, c = Some v /\ (inject_Z v * (3 # 2) < inject_Z r)%Q.
Proof.
  unfold dominates, ratio. destruct c as [v |].
  - rewrite Qltb_lt. split.
    + intros H. now exists v.
    + intros (v' & [= <-] & H). exact H.
  - split; [discriminate | intros (v & H & _); discriminate].
Qed.

Lemma dominates_pos (r : Z) (c : option Z) (i : Z) :
  sample data i = c -> dominates r c = true -> 0 < r.
Proof.
  intros Hc Hd. apply dominates_spec in Hd as (v & -> & Hlt).
  apply sample_range in Hc as [_ Hv].
  unfold Qlt, inject_Z in Hlt. simpl in Hlt. lia.
Qed.

Lemma hits_pos (i r : Z) : hitsD i r -> 0 < r.
Proof.
  intros [_ Hq]. unfold qualifies in Hq.
  apply andb_prop in Hq as [Hq _]. apply andb_prop in Hq as [_ Hg].
  eapply dominates_pos; [reflexivity | exact Hg].
Qed.

Lemma hits_fun (i r r' : Z) : hitsD i r -> hitsD i r' -> r = r'.
Proof. intros [H _] [H' _]. congruence. Qed.

Section ScanStep.
Variables (i : Z) (st : Z * Z).
Hypothesis Hi : 0 <= i.
Hypothesis Hm : i mod 8 = 0.
Hypothesis Hinv : scannedD i st.

Lemma next_offset (j : Z) : 0 <= j < i + 8 -> j mod 8 = 0 -> j < i \/ j = i.
Proof.
  intros Hj Hj8.
  destruct (Z.eq_dec j i) as [-> | Hne]; [now right | left].
  pose proof Hm as Hm'.
  rewrite Z.mod_divide in Hm', Hj8 by lia.
  destruct Hm' as [a Ha], Hj8 as [b Hb]. lia.
Qed.

Lemma scanned_skip : (forall r, ~ hitsD i r) -> scannedD (i + 8) st.
Proof.
  intros Hnone.
  destruct Hinv as [(Hm1 & Hm0 & Hno) | (Hrng & Hmod & Hbest & Hall)].
  - left. split; [assumption | split; [assumption |]].
    intros j r Hj Hj8. destruct (next_offset Hj Hj8) as [Hji | ->].
    + apply Hno; [lia | assumption].
    + apply Hnone.
  - right. split; [lia | split; [assumption | split; [assumption |]]].
    intros j r Hj Hj8 Hh. destruct (next_offset Hj Hj8) as [Hji | ->].
    + apply Hall; [lia | assumption | assumption].
    + exfalso. exact (Hnone r Hh).
Qed.

Lemma scanned_keep (r : Z) : hitsD i r -> r <= fst st -> scannedD (i + 8) st.
Proof.
  intros Hhit Hle. pose proof (hits_pos Hhit) as Hpos.
  destruct Hinv as [(Hm1 & Hm0 & Hno) | (Hrng & Hmod & Hbest & Hall)].
  - lia.
  - right. split; [lia | split; [assumption | split; [assumption |]]].
    intros j r0 Hj Hj8 Hh. destruct (next_offset Hj Hj8) as [Hji | ->].
    + apply Hall; [lia | assumption | assumption].
    + rewrite (hits_fun Hh Hhit). split; [assumption | lia].
Qed.

Lemma scanned_take (r : Z) : hitsD i r -> fst st < r -> scannedD (i + 8) (r, i).
Proof.
  intros Hhit Hlt. right. simpl.
  split; [lia | split; [assumption | split; [assumption |]]].
  intros j r0 Hj Hj8 Hh. destruct (next_offset Hj Hj8) as [Hji | ->].
  - assert (r0 <= fst st); [| lia].
    destruct Hinv as [(_ & _ & Hno) | (_ & _ & _ & Hall)].
    + exfalso. apply (Hno j r0); [lia | assumption | assumption].
    + apply (Hall j r0); [lia | assumption | assumption].
  - rewrite (hits_fun Hh Hhit). lia.
Qed.

Lemma scan_step_scanned : scannedD (i + 8) (scan_step threshold data i st).
Proof.
  unfold scan_step.
  destruct (sample data i) as [r |] eqn:Hr.
  - destruct (qualifies threshold r (sample data (i + 1)) (sample data (i + 2)))
      eqn:Hq.
    + assert (Hhit : hitsD i r) by (split; assumption).
      destruct (fst st <? r) eqn:Hlt.
      * apply Z.ltb_lt in Hlt. now apply scanned_take.
      * apply Z.ltb_ge in Hlt. now apply scanned_keep with r.
    + apply scanned_skip. intros r0 [Hs Hq']. congruence.
  - apply scanned_skip. intros r0 [Hs _]. congruence.
Qed.

End ScanStep.

(** The loop ends with the invariant established past the end of the
    buffer, whatever fuel is left over. *)
Lemma scan_loop_scanned (fuel : nat) (i : Z) (st : Z * Z) :
  0 <= i -> i mod 8 = 0 -> scannedD i st ->
  Z.of_nat (length data) <= i + 8 * Z.of_nat fuel ->
  exists i', Z.of_nat (length data) <= i' /\
             scannedD i' (scan_loop fuel threshold data i st).
Proof.
  revert i st. induction fuel as [| fuel IH]; intros i st Hi Hm Hinv Hfuel.
  - exists i. split; [lia | exact Hinv].
  - simpl scan_loop. destruct (i <? Z.of_nat (length data)) eqn:E.
    + change (4 * 2) with 8. apply IH.
      * lia.
      * rewrite <- Zplus_mod_idemp_r. rewrite Z.mod_same by lia.
        rewrite Z.add_0_r. exact Hm.
      * now apply scan_step_scanned.
      * lia.
    + apply Z.ltb_ge in E. exists i. split; [exact E | exact Hinv].
Qed.

Lemma scan_scanned :
  exists i', Z.of_nat (length data) <= i' /\ scannedD i' (scan threshold data).
Proof.
  unfold scan. apply scan_loop_scanned.
  - lia.
  - reflexivity.
  - left. simpl. repeat split. intros j r Hj. lia.
  - lia.
Qed.

(** The loop always terminates by its own test: more fuel changes nothing. *)
Lemma scan_loop_fuel (fuel : nat) (i : Z) (st : Z * Z) :
  0 <= i -> Z.of_nat (length data) <= i + 8 * Z.of_nat fuel ->
  scan_loop (S fuel) threshold data i st = scan_loop fuel threshold data i st.
Proof.
  revert i st. induction fuel as [| fuel IH]; intros i st Hi Hfuel.
  - simpl. destruct (i <? Z.of_nat (length data)) eqn:E; [| reflexivity].
    apply Z.ltb_lt in E. lia.
  - change (scan_loop (S (S fuel)) threshold data i st)
      with (if i <? Z.of_nat (length data)
            then scan_loop (S fuel) threshold data (i + 4 * 2)
                   (scan_step threshold data i st)
            else st).
    simpl scan_loop at 2.
    destruct (i <? Z.of_nat (length data)); [| reflexivity].
    apply IH; lia.
Qed.


(** Byte offsets and pixel numbers: offset [4 * p] passes the loop's test
    exactly when pixel [p] qualifies. *)
Lemma hits_laser_pixel (p r : Z) :
  hitsD (4 * p) r <-> pixel_red data p = Some r /\ laser_pixel threshold data p.
Proof.
  unfold hits, laser_pixel, pixel_red, pixel_green, pixel_blue,
    qualifies.
  split.
  - intros [Hs Hq]. split; [exact Hs |].
    apply andb_prop in Hq as [Hq Hb]. apply andb_prop in Hq as [Ht Hg].
    apply dominates_spec in Hg as (g & Hg & Hgr).
    apply dominates_spec in Hb as (b & Hb & Hbr).
    apply Z.ltb_lt in Ht.
    exists r, g, b. repeat split; assumption.
  - intros [Hs (r' & g & b & Hr' & Hg & Hb & Ht & Hgr & Hbr)].
    assert (r' = r) by congruence. subst r'.
    split; [exact Hs |].
    rewrite Hg, Hb. apply andb_true_intro. split.
    + apply andb_true_intro. split; [now apply Z.ltb_lt |].
      apply dominates_spec. now exists g.
    + apply dominates_spec. now exists b.
Qed.

Lemma even_offset (p : Z) : Z.even p = true <-> (4 * p) mod 8 = 0.
Proof.
  rewrite Z.even_spec. split.
  - intros [k ->]. rewrite Z.mod_divide by lia. exists k. lia.
  - rewrite Z.mod_divide by lia. intros [k Hk]. exists k. lia.
Qed.

Lemma laser_pixel_range (p : Z) :
  laser_pixel threshold data p -> 0 <= 4 * p < Z.of_nat (length data).
Proof.
  intros (r & _ & _ & Hr & _). now apply sample_range in Hr.
Qed.

(** In a buffer [w] pixels wide, pixel number [p] is column [p mod w] of
    row [p / w]. *)
Lemma row_major (w p : Z) :
  0 < w -> p = (p / w) * w + p mod w /\ 0 <= p mod w < w.
Proof.
  intros Hw. split.
  - rewrite Z.mul_comm. apply Z.div_mod. lia.
  - apply Z.mod_pos_bound. exact Hw.
Qed.

(** Full description of the detector's answer. *)
Lemma detectLaser_spec (w : Z) :
  (detectLaser threshold w data = None /\
   forall p, Z.even p = true -> ~ laser_pixel threshold data p)
  \/
  (exists p r,
     detectLaser threshold w data = Some (p mod w, p / w) /\
     Z.even p = true /\ pixel_red data p = Some r /\
     laser_pixel threshold data p /\
     forall p' r',
       Z.even p' = true -> laser_pixel threshold data p' ->
       pixel_red data p' = Some r' -> r' <= r /\ (p' < p -> r' < r)).
Proof.
  destruct scan_scanned as (i' & Hlen & Hinv).
  unfold detectLaser.
  destruct Hinv as [(Hm1 & Hm0 & Hno) | (Hrng & Hmod & Hbest & Hall)].
  - left. rewrite Hm1. simpl. split; [reflexivity |].
    intros p Hp Hl.
    destruct Hl as (r & g & b & Hr & Hrest).
    apply (Hno (4 * p) r).
    + apply sample_range in Hr. lia.
    + now apply even_offset.
    + apply hits_laser_pixel. split; [exact Hr |].
      exists r, g, b. split; [exact Hr | exact Hrest].
  - right.
    set (mi := snd (scan threshold data)) in *.
    set (mv := fst (scan threshold data)) in *.
    assert (Hmi : mi = 4 * (mi / 4)).
    { rewrite Z.mod_divide in Hmod by lia. destruct Hmod as [k Hk].
      rewrite Hk. replace (k * 8) with (k * 2 * 4) by lia.
      rewrite Z.div_mul by lia. lia. }
    exists (mi / 4), mv.
    rewrite Hmi in Hbest, Hmod. apply hits_laser_pixel in Hbest as [Hred Hlp].
    split; [| split; [| split; [| split]]].
    + destruct (mi =? -1) eqn:E; [apply Z.eqb_eq in E; lia | reflexivity].
    + now apply even_offset.
    + exact Hred.
    + exact Hlp.
    + intros p' r' Hev Hl Hr'.
      destruct (Hall (4 * p') r') as [Hle Hfirst].
      * apply laser_pixel_range in Hl. lia.
      * now apply even_offset.
      * apply hits_laser_pixel. now split.
      * split; [exact Hle |]. intros Hlt. apply Hfirst. lia.
Qed.

End DetectorFacts.

(** C9.  The detector answers with the coordinates (column and row in
    a buffer [w] pixels wide) of a qualifying pixel among those the
    strided pass examines (every second pixel) whose red value is the
    greatest of all examined qualifying pixels, or with nothing when none
    of them qualifies; a pixel qualifies iff its red is above the
    threshold and above 1.5 times its green and its blue. *)
Theorem detectLaser_brightest (threshold w : Z) (data : list N) :
  match detectLaser threshold w data with
  | None => forall p, Z.even p = true -> ~ laser_pixel threshold data p
  | Some (x, y) =>
      exists p r,
        Z.even p = true /\ x = p mod w /\ y = p / w /\
        (0 < w -> p = y * w + x /\ 0 <= x < w) /\
        pixel_red data p = Some r /\ laser_pixel threshold data p /\
        forall p' r',
          Z.even p' = true -> laser_pixel threshold data p' ->
          pixel_red data p' = Some r' -> r' <= r
  end.
Proof.
  destruct (detectLaser_spec threshold data w)
    as [[-> Hnone] | (p & r & -> & Hev & Hred & Hlp & Hmax)].
  - exact Hnone.
  - exists p, r.
    split; [exact Hev |]. split; [reflexivity |]. split; [reflexivity |].
    split; [apply row_major |]. split; [exact Hred |]. split; [exact Hlp |].
    intros p' r' Hev' Hl' Hr'. now apply (Hmax p' r').
Qed.

(** C10.  Only even row-major pixel numbers are examined: the answer
    is nothing exactly when no even-numbered pixel qualifies, whatever
    the odd-numbered pixels hold, and an answer is always an
    even-numbered pixel that qualifies.  Its red value is the greatest
    among the even-numbered qualifying pixels, and every earlier one of
    them is strictly less red: of several pixels sharing the greatest
    red value the earliest is returned.  These conditions leave one
    pixel only, so the answer is a function of the even-numbered pixels
    and the threshold. *)
Theorem detectLaser_stride_first (threshold w : Z) (data : list N) :
  (detectLaser threshold w data = None <->
   forall p, Z.even p = true -> ~ laser_pixel threshold data p)
  /\
  (forall x y,
     detectLaser threshold w data = Some (x, y) ->
     exists p r,
       Z.even p = true /\ x = p mod w /\ y = p / w /\
       pixel_red data p = Some r /\ laser_pixel threshold data p /\
       (forall p' r',
          Z.even p' = true -> laser_pixel threshold data p' ->
          pixel_red data p' = Some r' ->
          r' <= r /\ (p' < p -> r' < r)) /\
       (forall q rq,
          Z.even q = true -> laser_pixel threshold data q ->
          pixel_red data q = Some rq ->
          (forall p' r',
             Z.even p' = true -> laser_pixel threshold data p' ->
             pixel_red data p' = Some r' ->
             r' <= rq /\ (p' < q -> r' < rq)) ->
          q = p)).
Proof.
  destruct (detectLaser_spec threshold data w)
    as [[HN Hnone] | (p & r & HS & Hev & Hred & Hlp & Hmax)].
  - split; [split; [intros _; exact Hnone | intros _; exact HN] |].
    intros x y H. congruence.
  - split.
    + split; [intros H; congruence |].
      intros Hno. exfalso. exact (Hno p Hev Hlp).
    + intros x y H. rewrite HS in H. injection H as <- <-.
      exists p, r. repeat (split; [first [assumption | reflexivity] |]).
      intros q rq Hq Hlq Hrq Hbest.
      destruct (Hmax q rq Hq Hlq Hrq) as [Hle Hfirst].
      destruct (Hbest p r Hev Hlp Hred) as [Hle' Hfirst'].
      lia.
Qed.

(** ** RoundStateMachine *)

Section SessionFacts.
Variable cv : CvLib.
Implicit Types s : State cv.

Ltac break_match :=
  match goal with
  | |- context [match ?x with _ => _ end] => destruct x eqn:?
  end.

Lemma same_core_refl s : same_core s s.
Proof. unfold same_core. repeat split. Qed.

(** Effect of [handleShot] once past its debounce test. *)
Lemma handleShot_debounced now tx ty s :
  now - lastShotTimestamp s < 500 -> handleShot now tx ty s = s.
Proof.
  intros H. unfold handleShot.
  destruct (now - lastShotTimestamp s <? 500) eqn:E; [reflexivity |].
  apply Z.ltb_ge in E. lia.
Qed.

Lemma handleShot_fires now tx ty s :
  500 <= now - lastShotTimestamp s ->
  cooldownRemaining s = 0 ->
  let s' := handleShot now tx ty s in
  let newShot := {| shot_x := tx; shot_y := ty; score := shotScore tx ty;
                    timestamp := now;
                    roundId := Z.of_nat (length (history s)) + 1 |} in
  let updated := currentRoundShots s ++ [newShot] in
  currentRoundShots s' = updated /\
  lastShotTimestamp s' = now /\
  cooldownRemaining s' = 3 /\
  cooldownDue s' = now + 1000 /\
  mode s' = mode s /\ history s' = history s /\
  transformMatrix s' = transformMatrix s /\
  manualPoints s' = manualPoints s /\
  finishTimers s' =
    (if (5 <=? length updated)%nat
     then finishTimers s ++ [(now + 1500, updated)]
     else finishTimers s).
Proof.
  intros Hd Hc. unfold handleShot.
  destruct (now - lastShotTimestamp s <? 500) eqn:E;
    [apply Z.ltb_lt in E; lia |].
  unfold setCooldownRemaining.
  change (cooldownRemaining (setLastShotTimestamp now s))
    with (cooldownRemaining s).
  rewrite Hc.
  change (3 =? 0) with false. cbv iota.
  match goal with
  | |- context [(5 <=? ?n)%nat] => destruct (5 <=? n)%nat
  end; cbn; repeat split; reflexivity.
Qed.

(** What one frame does: apart from the calibration inputs and the canvas
    size it changes nothing, unless every gate is open and the mapped
    point is in bounds, in which case it is exactly one [handleShot]. *)
Lemma processFrame_shape now fr s :
  exists s1,
    same_core s1 s /\
    (manualPoints s1 = manualPoints s \/ length (manualPoints s1) = 4%nat) /\
    (processFrame now fr s = s1 \/
     (mode s = SHOOT /\ transformMatrix s <> None /\
      cooldownRemaining s = 0 /\ 500 <= now - lastShotTimestamp s /\
      exists tx ty, processFrame now fr s = handleShot now tx ty s1)).
Proof.
  unfold processFrame.
  set (s0 := if (canvasWidth s =? width fr) && (canvasHeight s =? height fr)
             then s else _).
  assert (H0 : same_core s0 s /\
               (manualPoints s0 = manualPoints s \/
                length (manualPoints s0) = 4%nat)).
  { subst s0. destruct ((canvasWidth s =? width fr) && (canvasHeight s =? height fr)).
    - split; [apply same_core_refl | now left].
    - split; [unfold same_core; simpl; repeat split | right; reflexivity]. }
  destruct H0 as [H0 H0m].
  set (s1 := match mode s with SETUP => _ | _ => s0 end).
  assert (H1 : same_core s1 s /\
               (manualPoints s1 = manualPoints s \/
                length (manualPoints s1) = 4%nat)).
  { subst s1. repeat break_match; unfold same_core in *; simpl; tauto. }
  destruct H1 as [H1 H1m].
  exists s1. split; [exact H1 | split; [exact H1m |]].
  destruct (mode s) eqn:Hmode; try (left; reflexivity).
  destruct (transformMatrix s) as [M |] eqn:HM; try (left; reflexivity).
  destruct (cooldownRemaining s =? 0) eqn:Hc; try (left; reflexivity).
  destruct (now - lastShotTimestamp s <? 500) eqn:Hd; try (left; reflexivity).
  destruct (detectLaser (threshold s) (width fr) (data fr)) as [[x y] |];
    try (left; reflexivity).
  destruct (perspectiveTransform cv M x y) as [[tx ty] |];
    try (left; reflexivity).
  destruct (inBounds tx ty); try (left; reflexivity).
  right. apply Z.eqb_eq in Hc. apply Z.ltb_ge in Hd.
  repeat split; try assumption; try discriminate.
  exists tx, ty. reflexivity.
Qed.


(** Runs are built one event at a time. *)
Lemma run_snoc s evs te : run s (evs ++ [te]) = step (run s evs) te.
Proof. unfold run. rewrite fold_left_app. reflexivity. Qed.

Lemma run_cons s evs te : run s (te :: evs) = run (step s te) evs.
Proof. reflexivity. Qed.

Lemma reachable_init : reachable (initialState cv).
Proof. exists []. reflexivity. Qed.

Lemma reachable_step s te : reachable s -> reachable (step s te).
Proof. intros [evs ->]. exists (evs ++ [te]). now rewrite run_snoc. Qed.

Lemma reachable_run s evs : reachable s -> reachable (run s evs).
Proof.
  revert s. induction evs as [| te evs IH]; intros s Hs; [exact Hs |].
  rewrite run_cons. apply IH. now apply reachable_step.
Qed.

Lemma reachable_invariant (P : State cv -> Prop) :
  P (initialState cv) ->
  (forall s te, P s -> P (step s te)) ->
  forall s, reachable s -> P s.
Proof.
  intros Hinit Hstep s [evs ->].
  induction evs as [| te evs IH] using rev_ind; [exact Hinit |].
  rewrite run_snoc. now apply Hstep.
Qed.

Lemma set_nth_length (A : Type) (i : nat) (v : A) (l : list A) :
  length (set_nth i v l) = length l.
Proof.
  revert i. induction l as [| h t IH]; intros [| i]; simpl; auto.
Qed.

(** Field by field, what each handler leaves alone. *)
Lemma finishRound_fields shots0 s :
  let s' := finishRound shots0 s in
  mode s' = ROUND_OVER /\
  history s' = {| roundNumber := Z.of_nat (length (history s)) + 1;
                  totalScore := fold_left (fun a b => a + score b) shots0 0;
                  shots := shots0 |} :: history s /\
  transformMatrix s' = transformMatrix s /\
  manualPoints s' = manualPoints s /\
  finishTimers s' = finishTimers s /\
  currentRoundShots s' = currentRoundShots s /\
  lastShotTimestamp s' = lastShotTimestamp s /\
  cooldownRemaining s' = cooldownRemaining s /\
  cooldownDue s' = cooldownDue s.
Proof. cbn. repeat split. Qed.

Lemma finishTimer_cases now s :
  finishTimer now s = s \/
  exists due updated rest,
    finishTimers s = (due, updated) :: rest /\ due <= now /\
    finishTimer now s = finishRound updated (setFinishTimers rest s).
Proof.
  unfold finishTimer. destruct (finishTimers s) as [| [due updated] rest];
    [now left |].
  destruct (due <=? now) eqn:E; [| now left].
  right. exists due, updated, rest. apply Z.leb_le in E. auto.
Qed.

Lemma cooldownTimer_fields now s :
  let s' := cooldownTimer now s in
  mode s' = mode s /\ history s' = history s /\
  transformMatrix s' = transformMatrix s /\
  manualPoints s' = manualPoints s /\
  finishTimers s' = finishTimers s /\
  currentRoundShots s' = currentRoundShots s /\
  lastShotTimestamp s' = lastShotTimestamp s.
Proof.
  unfold cooldownTimer, setCooldownRemaining.
  repeat break_match; cbn; repeat split.
Qed.

Lemma lockTarget_fields s :
  let s' := lockTarget s in
  history s' = history s /\ manualPoints s' = manualPoints s /\
  finishTimers s' = finishTimers s /\
  lastShotTimestamp s' = lastShotTimestamp s /\
  cooldownRemaining s' = cooldownRemaining s /\
  cooldownDue s' = cooldownDue s /\
  (transformMatrix s' = None -> s' = s).
Proof.
  unfold lockTarget.
  repeat break_match; cbn; repeat split; try discriminate; reflexivity.
Qed.

Lemma startNewRound_fields now s :
  let s' := startNewRound now s in
  mode s' = SHOOT /\ history s' = history s /\
  transformMatrix s' = transformMatrix s /\
  manualPoints s' = manualPoints s /\
  finishTimers s' = finishTimers s /\
  currentRoundShots s' = [] /\
  lastShotTimestamp s' = lastShotTimestamp s /\
  cooldownRemaining s' = 0.
Proof.
  unfold startNewRound, setCooldownRemaining.
  repeat break_match; cbn; repeat split;
    try (apply Z.eqb_eq in Heqb; cbn in Heqb; congruence).
Qed.

Lemma resetToSetup_fields now s :
  let s' := resetToSetup now s in
  mode s' = SETUP /\ history s' = history s /\
  transformMatrix s' = transformMatrix s /\
  manualPoints s' = manualPoints s /\
  finishTimers s' = finishTimers s /\
  currentRoundShots s' = [] /\
  targetFound s' = false /\
  lastShotTimestamp s' = lastShotTimestamp s /\
  cooldownRemaining s' = 0.
Proof.
  unfold resetToSetup, setCooldownRemaining.
  repeat break_match; cbn; repeat split;
    try (apply Z.eqb_eq in Heqb; cbn in Heqb; congruence).
Qed.


(** A frame either leaves the core of the state alone or records exactly
    one shot, with everything [handleShot] does. *)
Lemma processFrame_cases now fr s :
  let s' := processFrame now fr s in
  (manualPoints s' = manualPoints s \/ length (manualPoints s') = 4%nat) /\
  (same_core s' s \/
   (mode s = SHOOT /\ transformMatrix s <> None /\
    cooldownRemaining s = 0 /\ 500 <= now - lastShotTimestamp s /\
    exists tx ty,
      let newShot := {| shot_x := tx; shot_y := ty; score := shotScore tx ty;
                        timestamp := now;
                        roundId := Z.of_nat (length (history s)) + 1 |} in
      let updated := currentRoundShots s ++ [newShot] in
      currentRoundShots s' = updated /\
      lastShotTimestamp s' = now /\
      cooldownRemaining s' = 3 /\
      cooldownDue s' = now + 1000 /\
      mode s' = mode s /\ history s' = history s /\
      transformMatrix s' = transformMatrix s /\
      finishTimers s' =
        (if (5 <=? length updated)%nat
         then finishTimers s ++ [(now + 1500, updated)]
         else finishTimers s))).
Proof.
  intros s'. subst s'.
  destruct (processFrame_shape now fr s) as (s1 & Hcore & Hman & Hcase).
  destruct Hcase as [-> | (Hm & HM & Hc & Hd & tx & ty & ->)].
  - split; [exact Hman | left; exact Hcore].
  - destruct Hcore as (C1 & C2 & C3 & C4 & C5 & C6 & C7 & C8 & C9 & C10).
    assert (Hd1 : 500 <= now - lastShotTimestamp s1) by (rewrite C9; exact Hd).
    assert (Hc1 : cooldownRemaining s1 = 0) by (rewrite C6; exact Hc).
    destruct (@handleShot_fires now tx ty s1 Hd1 Hc1)
      as (F1 & F2 & F3 & F4 & F5 & F6 & F7 & F8 & F9).
    split.
    + rewrite F8. exact Hman.
    + right. repeat (split; [assumption |]).
      exists tx, ty. cbv zeta.
      rewrite F1, F2, F3, F4, F5, F6, F7, F9, C1, C3, C4, C8, C10.
      repeat split.
Qed.

Lemma app_one_neq (A : Type) (l : list A) (x : A) : l ++ [x] <> l.
Proof.
  intros H. apply (f_equal (@length A)) in H.
  rewrite length_app in H. simpl in H. lia.
Qed.

(** What an accepted frame tells about the state before and after. *)
Lemma accepted_inv now fr s :
  accepted s now fr ->
  let s' := processFrame now fr s in
  mode s = SHOOT /\ transformMatrix s <> None /\
  cooldownRemaining s = 0 /\ 500 <= now - lastShotTimestamp s /\
  lastShotTimestamp s' = now /\ cooldownRemaining s' = 3 /\
  cooldownDue s' = now + 1000 /\
  mode s' = SHOOT /\ history s' = history s /\
  transformMatrix s' = transformMatrix s /\
  finishTimers s' =
    (if (5 <=? length (currentRoundShots s'))%nat
     then finishTimers s ++ [(now + 1500, currentRoundShots s')]
     else finishTimers s).
Proof.
  intros [sh Hsh] s'. subst s'.
  destruct (processFrame_cases now fr s) as [_ [Hcore | Hshot]].
  - destruct Hcore as (_ & _ & C3 & _). rewrite C3 in Hsh.
    symmetry in Hsh. now apply app_one_neq in Hsh.
  - destruct Hshot as (Hm & HM & Hc & Hd & tx & ty & Hf). cbv zeta in Hf.
    destruct Hf as (F1 & F2 & F3 & F4 & F5 & F6 & F7 & F9).
    repeat (split; [first [assumption | congruence] |]).
    rewrite F9, F1. reflexivity.
Qed.


Lemma AppMode_eqb_eq (a b : AppMode) : AppMode_eqb a b = true <-> a = b.
Proof. destruct a, b; simpl; split; congruence. Qed.

Lemma well_formed_init : well_formed (initialState cv).
Proof. unfold well_formed. cbn. repeat split. Qed.

Lemma well_formed_step s te : well_formed s -> well_formed (step s te).
Proof.
  intros (W1 & W2 & W3). destruct te as [now e].
  destruct e; cbn [step].
  - (* AnimationFrame *)
    destruct (processFrame_cases now fr s) as [Hman Hcase].
    cbv zeta in Hman, Hcase.
    assert (Hsame : mode (processFrame now fr s) = mode s /\
                    history (processFrame now fr s) = history s /\
                    transformMatrix (processFrame now fr s) = transformMatrix s).
    { destruct Hcase as [Hc | (_ & _ & _ & _ & tx & ty & Hf)].
      - unfold same_core in Hc. tauto.
      - cbv zeta in Hf. tauto. }
    destruct Hsame as (Em & Eh & EM).
    split; [| split].
    + rewrite EM, Em. intros HN. destruct (W1 HN) as [Hs Ht].
      split; [exact Hs |].
      destruct Hcase as [Hc | (_ & HM & _)]; [| congruence].
      unfold same_core in Hc.
      destruct Hc as (_ & _ & _ & _ & _ & _ & _ & _ & _ & Hc). congruence.
    + destruct Hman as [-> | H4]; assumption.
    + rewrite Eh. exact W3.
  - (* CooldownTimeout *)
    destruct (cooldownTimer_fields now s) as (E1 & E2 & E3 & E4 & E5 & _).
    unfold well_formed. rewrite E1, E2, E3, E4, E5. auto.
  - (* FinishTimeout *)
    destruct (finishTimer_cases now s)
      as [-> | (due & updated & rest & Ht & Hdue & ->)];
      [unfold well_formed; auto |].
    unfold well_formed. cbn.
    split; [| split].
    + intros HN. destruct (W1 HN) as [_ Hnil]. congruence.
    + exact W2.
    + f_equal; [lia | exact W3].
  - (* ClickLock *)
    destruct (AppMode_eqb (mode s) SETUP); [| unfold well_formed; auto].
    destruct (lockTarget_fields s) as (E1 & E2 & E3 & _ & _ & _ & E4).
    split; [| split].
    + intros HN. pose proof (E4 HN) as Hs. rewrite Hs in HN |- *. exact (W1 HN).
    + rewrite E2. exact W2.
    + rewrite E1. exact W3.
  - (* ClickNextRound *)
    destruct (AppMode_eqb (mode s) ROUND_OVER) eqn:Hm;
      [| unfold well_formed; auto].
    apply AppMode_eqb_eq in Hm.
    destruct (startNewRound_fields now s) as (E1 & E2 & E3 & E4 & E5 & _).
    unfold well_formed. rewrite E2, E3, E4, E5.
    split; [| auto].
    intros HN. destruct (W1 HN) as [Hs _]. congruence.
  - (* ClickReset *)
    destruct (AppMode_eqb (mode s) SETUP); [unfold well_formed; auto |].
    destruct (resetToSetup_fields now s) as (E1 & E2 & E3 & E4 & E5 & _).
    unfold well_formed. rewrite E1, E2, E3, E4, E5.
    split; [| auto].
    intros HN. destruct (W1 HN) as [_ Ht]. auto.
  - (* ClickSetupType *)
    destruct (AppMode_eqb (mode s) SETUP); unfold well_formed; cbn; auto.
  - (* SlideThreshold *)
    destruct (AppMode_eqb (mode s) SETUP); unfold well_formed; cbn; auto.
  - (* PointerDown *)
    assert (W : well_formed s) by (unfold well_formed; auto).
    unfold handlePointerDown.
    destruct (mode s), (setupType s); try exact W.
    destruct (findIndex (hit x y hitRadius) (manualPoints s)); exact W.
  - (* PointerMove *)
    unfold handlePointerMove.
    destruct (draggingIdx s); unfold well_formed; cbn; auto.
    rewrite set_nth_length. auto.
  - (* PointerUp *)
    unfold well_formed; cbn; auto.
Qed.

Lemma reachable_well_formed s : reachable s -> well_formed s.
Proof.
  apply reachable_invariant; [apply well_formed_init |].
  intros s0 te. apply well_formed_step.
Qed.


(** C1 (as amended).  In every reachable state, SHOOT and ROUND_OVER have
    a transform matrix; [resetToSetup] returns to SETUP and leaves the
    matrix where it is. *)
Theorem homography_while_shooting s :
  reachable s ->
  (mode s = SHOOT \/ mode s = ROUND_OVER -> transformMatrix s <> None) /\
  (forall now,
     mode (resetToSetup now s) = SETUP /\
     transformMatrix (resetToSetup now s) = transformMatrix s).
Proof.
  intros Hr. apply reachable_well_formed in Hr as (W1 & _ & _).
  split.
  - intros Hm HN. destruct (W1 HN) as [Hs _].
    destruct Hm as [Hm | Hm]; congruence.
  - intros now. destruct (resetToSetup_fields now s) as (E1 & _ & E3 & _).
    split; assumption.
Qed.

(** The quadrilateral [lockTarget] works on. *)
Lemma lockTarget_locks s q c :
  (setupType s = MANUAL /\ q = manualPoints s) \/
  (setupType s = AUTO /\ targetFound s = true /\
   length (targetQuad s) = 4%nat /\ q = targetQuad s) ->
  orderCorners q = Some c ->
  lockTarget s =
    setCurrentRoundShots []
      (setMode SHOOT
         (setTransformMatrix
            (Some (getPerspectiveTransform cv
                     [px (tl c); py (tl c); px (tr c); py (tr c);
                      px (br c); py (br c); px (bl c); py (bl c)]
                     [0; 0; 500; 0; 500; 700; 0; 700]%Q)) s)).
Proof.
  intros Hq Hc. unfold lockTarget.
  destruct Hq as [[Ht ->] | (Ht & Hf & Hl & ->)]; rewrite Ht.
  - rewrite Hc. reflexivity.
  - rewrite Hf. apply Nat.eqb_eq in Hl. rewrite Hl. simpl. rewrite Hc.
    reflexivity.
Qed.

(** C3 (as amended).  [lockTarget] tests no geometry.  It leaves the
    state as it is only in AUTO setup without a found four-corner target;
    with the manual handles, or with a found four-corner target, it always
    moves to SHOOT with an empty round and stores whatever matrix
    [getPerspectiveTransform] returns for the sorted corners. *)
Theorem lockTarget_outcome s :
  reachable s ->
  (setupType s = AUTO ->
   targetFound s = false \/ length (targetQuad s) <> 4%nat ->
   lockTarget s = s) /\
  (setupType s = MANUAL \/
   (targetFound s = true /\ length (targetQuad s) = 4%nat) ->
   exists c,
     orderCorners (match setupType s with
                   | AUTO => targetQuad s
                   | MANUAL => manualPoints s
                   end) = Some c /\
     mode (lockTarget s) = SHOOT /\
     currentRoundShots (lockTarget s) = [] /\
     transformMatrix (lockTarget s) =
       Some (getPerspectiveTransform cv
               [px (tl c); py (tl c); px (tr c); py (tr c);
                px (br c); py (br c); px (bl c); py (bl c)]
               [0; 0; 500; 0; 500; 700; 0; 700]%Q)).
Proof.
  intros Hr. apply reachable_well_formed in Hr as (_ & W2 & _).
  split.
  - intros Ht Hno. unfold lockTarget. rewrite Ht.
    destruct Hno as [-> | Hl]; [reflexivity |].
    apply Nat.eqb_neq in Hl. rewrite Hl.
    destruct (targetFound s); reflexivity.
  - intros Hq.
    set (q := match setupType s with
              | AUTO => targetQuad s | MANUAL => manualPoints s end).
    assert (Hne : q <> []).
    { subst q. destruct (setupType s) eqn:Ht.
      - destruct Hq as [Hq | [_ Hl]]; [discriminate |].
        intros E. rewrite E in Hl. discriminate.
      - intros E. rewrite E in W2. discriminate. }
    destruct (orderCorners_some Hne) as [c Hc].
    exists c. split; [exact Hc |].
    rewrite (@lockTarget_locks s q c); [cbn; repeat split | | exact Hc].
    subst q. destruct (setupType s) eqn:Ht.
    + right. destruct Hq as [Hq | [Hf Hl]]; [discriminate |]. auto.
    + left. auto.
Qed.

Lemma fold_score_sum (l : list Shot) (acc : Z) :
  fold_left (fun a b => a + score b) l acc = acc + sum_scores l.
Proof.
  revert acc. induction l as [| sh l IH]; intros acc; simpl.
  - lia.
  - rewrite IH. lia.
Qed.

(** [resetToSetup] leaves a pending round-completion timer in the queue,
    and the timer's callback does not look at the mode: once due it seals
    its round in whatever state it finds. *)
Lemma reset_keeps_finish_timer s now now' due updated rest :
  finishTimers s = (due, updated) :: rest -> due <= now' ->
  let s' := finishTimer now' (resetToSetup now s) in
  finishTimers (resetToSetup now s) = (due, updated) :: rest /\
  mode (resetToSetup now s) = SETUP /\
  mode s' = ROUND_OVER /\
  length (history s') = S (length (history s)).
Proof.
  intros Hq Hdue.
  destruct (resetToSetup_fields now s) as (E1 & E2 & _ & _ & E5 & _).
  cbv zeta. unfold finishTimer. rewrite E5, Hq.
  destruct (due <=? now') eqn:E; [| apply Z.leb_gt in E; lia].
  split; [reflexivity |]. split; [exact E1 |].
  split; [reflexivity |].
  cbn [finishRound mode history setMode setHistory setFinishTimers length].
  rewrite E2. reflexivity.
Qed.





(** The time of the last accepted shot never decreases. *)
Lemma lastShot_step s te : lastShotTimestamp s <= lastShotTimestamp (step s te).
Proof.
  destruct te as [now e]. destruct e; cbn [step].
  - destruct (processFrame_cases now fr s) as [_ [Hc | Hs]].
    + destruct Hc as (_ & _ & _ & _ & _ & _ & _ & _ & -> & _). lia.
    + destruct Hs as (_ & _ & _ & Hd & tx & ty & Hf). cbv zeta in Hf.
      destruct Hf as (_ & -> & _). lia.
  - destruct (cooldownTimer_fields now s) as (_ & _ & _ & _ & _ & _ & ->). lia.
  - destruct (finishTimer_cases now s) as [-> | (d & u & r & _ & _ & ->)];
      cbn; lia.
  - destruct (AppMode_eqb (mode s) SETUP); [| lia].
    destruct (lockTarget_fields s) as (_ & _ & _ & -> & _). lia.
  - destruct (AppMode_eqb (mode s) ROUND_OVER); [| lia].
    destruct (startNewRound_fields now s) as (_ & _ & _ & _ & _ & _ & -> & _).
    lia.
  - destruct (AppMode_eqb (mode s) SETUP); [lia |].
    destruct (resetToSetup_fields now s)
      as (_ & _ & _ & _ & _ & _ & _ & -> & _).
    lia.
  - destruct (AppMode_eqb (mode s) SETUP); cbn; lia.
  - destruct (AppMode_eqb (mode s) SETUP); cbn; lia.
  - unfold handlePointerDown.
    destruct (mode s), (setupType s); try lia.
    destruct (findIndex (hit x y hitRadius) (manualPoints s)); cbn; lia.
  - unfold handlePointerMove. destruct (draggingIdx s); cbn; lia.
  - cbn. lia.
Qed.

Lemma lastShot_run s evs : lastShotTimestamp s <= lastShotTimestamp (run s evs).
Proof.
  revert s. induction evs as [| te evs IH]; intros s; [cbn; lia |].
  rewrite run_cons. pose proof (lastShot_step s te). pose proof (IH (step s te)).
  lia.
Qed.

(** C7.  After a frame accepted at [t1] and any further events, a frame
    accepted at [t2] has [t2 - t1 >= 500]; and a frame arriving less than
    500 ms after the last accepted shot leaves the round in progress, and
    the time of the last shot, as they are. *)
Theorem debounce s t1 f1 evs :
  accepted s t1 f1 ->
  let s1 := run (processFrame t1 f1 s) evs in
  t1 <= lastShotTimestamp s1 /\
  forall t2 f2,
    (accepted s1 t2 f2 -> 500 <= t2 - t1) /\
    (t2 - lastShotTimestamp s1 < 500 ->
     ~ accepted s1 t2 f2 /\
     currentRoundShots (processFrame t2 f2 s1) = currentRoundShots s1 /\
     lastShotTimestamp (processFrame t2 f2 s1) = lastShotTimestamp s1).
Proof.
  intros Hacc. cbv zeta.
  pose proof (accepted_inv Hacc) as Hinv. cbv zeta in Hinv.
  destruct Hinv as (_ & _ & _ & _ & Hlast & _).
  pose proof (lastShot_run (processFrame t1 f1 s) evs) as Hmono.
  rewrite Hlast in Hmono.
  split; [exact Hmono |].
  intros t2 f2. split.
  - intros Hacc2. pose proof (accepted_inv Hacc2) as Hinv2. cbv zeta in Hinv2.
    destruct Hinv2 as (_ & _ & _ & Hd & _). lia.
  - intros Hnear.
    assert (Hno : ~ accepted (run (processFrame t1 f1 s) evs) t2 f2).
    { intros Hacc2. pose proof (accepted_inv Hacc2) as Hinv2.
      cbv zeta in Hinv2. destruct Hinv2 as (_ & _ & _ & Hd & _). lia. }
    split; [exact Hno |].
    destruct (processFrame_cases t2 f2 (run (processFrame t1 f1 s) evs))
      as [_ [Hc | Hs]].
    + destruct Hc as (_ & _ & Hc3 & _ & _ & _ & _ & _ & Hc9 & _). auto.
    + destruct Hs as (_ & _ & _ & Hd & _). lia.
Qed.

(** Frames are ignored while the cooldown counter is not zero. *)
Lemma cooldown_suppresses s now fr :
  cooldownRemaining s <> 0 -> same_core (processFrame now fr s) s.
Proof.
  intros Hc. destruct (processFrame_cases now fr s) as [_ [H | H]];
    [exact H |].
  destruct H as (_ & _ & H0 & _). contradiction.
Qed.

Lemma cooling_later (t1 : Z) s tl tl' :
  tl <= tl' -> cooling t1 s tl -> cooling t1 s tl'.
Proof. unfold cooling. intros Hle [H | [H0 H]]; [now left | right; lia]. Qed.

Lemma cooling_same (t1 : Z) s s' tl :
  cooldownRemaining s' = cooldownRemaining s ->
  cooldownDue s' = cooldownDue s ->
  cooling t1 s tl -> cooling t1 s' tl.
Proof. unfold cooling. intros -> ->. auto. Qed.

Lemma cooling_step (t1 : Z) s tl now e :
  zeroes_cooldown e = false -> tl <= now ->
  cooling t1 s tl -> cooling t1 (step s (now, e)) now.
Proof.
  intros Hz Hle HJ.
  assert (HJ' : cooling t1 s now) by (eapply cooling_later; eauto).
  destruct e; cbn [step]; try discriminate Hz.
  - (* AnimationFrame *)
    destruct (processFrame_cases now fr s) as [_ [Hc | Hs]].
    + destruct Hc as (_ & _ & _ & _ & _ & Hc6 & Hc7 & _).
      now apply (cooling_same (s := s)).
    + destruct Hs as (_ & _ & Hc0 & _ & tx & ty & Hf). cbv zeta in Hf.
      destruct Hf as (_ & _ & F3 & F4 & _).
      left. rewrite F3, F4.
      destruct HJ as [[Hpos _] | [_ Ht]]; lia.
  - (* CooldownTimeout *)
    unfold cooldownTimer.
    destruct ((0 <? cooldownRemaining s) && (cooldownDue s <=? now)) eqn:E;
      [| exact HJ'].
    apply andb_prop in E as [Epos Edue].
    apply Z.ltb_lt in Epos. apply Z.leb_le in Edue.
    unfold setCooldownRemaining.
    destruct (cooldownRemaining s - 1 =? cooldownRemaining s) eqn:E1;
      [apply Z.eqb_eq in E1; lia |].
    unfold cooling. cbn [cooldownRemaining cooldownDue].
    destruct HJ as [[_ Hbound] | [H0 _]]; [| lia].
    destruct (0 <? cooldownRemaining s - 1) eqn:E2.
    + apply Z.ltb_lt in E2. left. lia.
    + apply Z.ltb_ge in E2. right. lia.
  - (* FinishTimeout *)
    destruct (finishTimer_cases now s) as [-> | (d & u & r & _ & _ & ->)];
      [exact HJ' |].
    now apply (cooling_same (s := s)).
  - (* ClickLock *)
    destruct (AppMode_eqb (mode s) SETUP); [| exact HJ'].
    destruct (lockTarget_fields s) as (_ & _ & _ & _ & E5 & E6 & _).
    now apply (cooling_same (s := s)).
  - destruct (AppMode_eqb (mode s) SETUP); exact HJ'.
  - destruct (AppMode_eqb (mode s) SETUP); exact HJ'.
  - unfold handlePointerDown.
    destruct (mode s), (setupType s); try exact HJ'.
    destruct (findIndex (hit x y hitRadius) (manualPoints s)); exact HJ'.
  - unfold handlePointerMove. destruct (draggingIdx s); exact HJ'.
  - exact HJ'.
Qed.

Lemma cooling_run (t1 : Z) evs s tl :
  existsb (fun te => zeroes_cooldown (snd te)) evs = false ->
  chronological tl evs ->
  cooling t1 s tl -> cooling t1 (run s evs) (end_time tl evs).
Proof.
  revert s tl. induction evs as [| [now e] evs IH]; intros s tl Hz Hch HJ.
  - exact HJ.
  - cbn in Hz. apply orb_false_elim in Hz as [Hz1 Hz2].
    destruct Hch as [Hle Hch].
    rewrite run_cons. unfold end_time. cbn [fold_left fst].
    apply IH; [exact Hz2 | exact Hch |].
    now apply cooling_step with tl.
Qed.

(** C8 (as amended).  After a frame accepted at [t1], along events in
    chronological order none of which is a next-round or reset command,
    no frame is accepted before [t1 + 3000]; and in any state with a
    nonzero cooldown counter a frame changes neither the round in
    progress nor any timer. *)
Theorem cooldown_holds s t1 f1 evs t2 f2 :
  accepted s t1 f1 ->
  chronological t1 evs ->
  existsb (fun te => zeroes_cooldown (snd te)) evs = false ->
  end_time t1 evs <= t2 ->
  let s1 := run (processFrame t1 f1 s) evs in
  (accepted s1 t2 f2 -> t1 + 3000 <= t2) /\
  (cooldownRemaining s1 <> 0 ->
   ~ accepted s1 t2 f2 /\ same_core (processFrame t2 f2 s1) s1).
Proof.
  intros Hacc Hch Hz Hend. cbv zeta.
  pose proof (accepted_inv Hacc) as Hinv. cbv zeta in Hinv.
  destruct Hinv as (_ & _ & _ & _ & _ & Hc3 & Hdue & _).
  assert (HJ : cooling t1 (processFrame t1 f1 s) t1).
  { left. rewrite Hc3, Hdue. lia. }
  pose proof (cooling_run evs Hz Hch HJ) as HJ'.
  split.
  - intros Hacc2. pose proof (accepted_inv Hacc2) as Hinv2. cbv zeta in Hinv2.
    destruct Hinv2 as (_ & _ & H0 & _).
    destruct HJ' as [[Hpos _] | [_ Ht]]; lia.
  - intros Hne. split; [| now apply cooldown_suppresses].
    intros Hacc2. pose proof (accepted_inv Hacc2) as Hinv2. cbv zeta in Hinv2.
    destruct Hinv2 as (_ & _ & H0 & _). contradiction.
Qed.

End SessionFacts.

(** ** Concrete instances *)

(** The scoring scenario: the centre scores 10, a point 250 units below
    it scores 0, by the code and by the formula. *)
Example score_at_centre : shotScore 250 350 = 10.
Proof. vm_compute. reflexivity. Qed.

Example score_at_radius : shotScore 250 600 = 0.
Proof. vm_compute. reflexivity. Qed.

Example formula_at_radius : specScore 250 600 = 0.
Proof.
  replace 250%R with (Q2R 250) by (unfold Q2R; simpl; field).
  replace 600%R with (Q2R 600) by (unfold Q2R; simpl; field).
  rewrite specScoreQ_correct. reflexivity.
Qed.

(** The calibration scenario: the camera quadrilateral
    (100,100) (500,100) (500,400) (100,400) against the 500 x 700
    rectangle sends the pixel (300, 250) to the centre. *)
Example reference_transform_centre :
  perspectiveTransform cvq
    (getPerspectiveTransform cvq
       [100; 100; 500; 100; 500; 400; 100; 400]%Q
       [0; 0; 500; 0; 500; 700; 0; 700]%Q) 300 250
  = Some (250%Q, 350%Q).
Proof. vm_compute. reflexivity. Qed.

(** A lone qualifying pixel at an odd pixel number is not seen. *)
Example odd_pixel_missed : detectLaser 200 4 odd_row = None.
Proof. reflexivity. Qed.

(** Pixels 0 and 2 tie at red 250 (pixel 1, brighter, is skipped): the
    earlier one wins. *)
Example tie_takes_first : detectLaser 200 4 tie_row = Some (0, 0).
Proof. reflexivity. Qed.



(** C9: the theorem on the row with a tie. *)
Lemma detectLaser_brightest_witness :
  exists p r,
    Z.even p = true /\ 0 = p mod 4 /\ 0 = p / 4 /\
    (0 < 4 -> p = 0 * 4 + 0 /\ 0 <= 0 < 4) /\
    pixel_red tie_row p = Some r /\ laser_pixel 200 tie_row p /\
    forall p' r',
      Z.even p' = true -> laser_pixel 200 tie_row p' ->
      pixel_red tie_row p' = Some r' -> r' <= r.
Proof. exact (detectLaser_brightest 200 4 tie_row). Defined.

(** C10: the theorem on the two rows. *)
Lemma detectLaser_stride_first_witness :
  detectLaser 200 4 odd_row = None /\
  exists p r,
    Z.even p = true /\ 0 = p mod 4 /\ 0 = p / 4 /\
    pixel_red tie_row p = Some r /\ laser_pixel 200 tie_row p /\
    (forall p' r',
       Z.even p' = true -> laser_pixel 200 tie_row p' ->
       pixel_red tie_row p' = Some r' ->
       r' <= r /\ (p' < p -> r' < r)) /\
    (forall q rq,
       Z.even q = true -> laser_pixel 200 tie_row q ->
       pixel_red tie_row q = Some rq ->
       (forall p' r',
          Z.even p' = true -> laser_pixel 200 tie_row p' ->
          pixel_red tie_row p' = Some r' ->
          r' <= rq /\ (p' < q -> r' < rq)) ->
       q = p).
Proof.
  split.
  - destruct (detectLaser_stride_first 200 4 odd_row) as [[_ H] _].
    apply H.
    intros p Hev (r & g & b & Hr & _ & _ & Ht & _).
    unfold pixel_red in Hr.
    pose proof (sample_range _ _ Hr) as [Hrng _].
    change (Z.of_nat (length odd_row)) with 16 in Hrng.
    assert (Hp : p = 0 \/ p = 1 \/ p = 2 \/ p = 3) by lia.
    destruct Hp as [-> | [-> | [-> | ->]]];
      try discriminate Hev; vm_compute in Hr; injection Hr as <-; lia.
  - destruct (detectLaser_stride_first 200 4 tie_row) as [_ H].
    apply H. reflexivity.
Defined.

Lemma reachable_locked : reachable locked.
Proof. exists calibrate. reflexivity. Qed.

Lemma reachable_after_four : reachable after_four.
Proof. apply reachable_run. exact reachable_locked. Qed.

Lemma reachable_degenerate : reachable degenerate.
Proof. exists drag_to_line. reflexivity. Qed.

Lemma accepted_first : accepted locked 1000 laser20.
Proof. exists (centre_shot 1000). vm_compute. reflexivity. Qed.

Lemma accepted_second :
  accepted (run (processFrame 1000 laser20 locked) (cooldown_ticks 1000))
    5000 laser20.
Proof. exists (centre_shot 5000). vm_compute. reflexivity. Qed.


(** C1: the theorem at the calibrated state. *)
Lemma homography_while_shooting_witness :
  reachable locked /\
  mode locked = SHOOT /\
  transformMatrix locked <> None /\
  mode (resetToSetup 30 locked) = SETUP /\
  transformMatrix (resetToSetup 30 locked) = transformMatrix locked.
Proof.
  pose proof (homography_while_shooting reachable_locked) as [H1 H2].
  assert (Hm : mode locked = SHOOT) by (vm_compute; reflexivity).
  destruct (H2 30) as [H3 H4].
  exact (conj reachable_locked
           (conj Hm (conj (H1 (or_introl Hm)) (conj H3 H4)))).
Defined.

(** C1 as stated fails: after calibrating and pressing reset the state
    is SETUP and the matrix computed by the lock is still there. *)
Lemma homography_survives_reset :
  reachable after_reset /\
  mode after_reset = SETUP /\
  transformMatrix after_reset = transformMatrix locked /\
  transformMatrix after_reset <> None.
Proof.
  split; [apply reachable_run; exact reachable_locked |].
  split; [vm_compute; reflexivity |].
  split; [vm_compute; reflexivity |].
  vm_compute. intros H. discriminate H.
Qed.

(** C2: the failing run.  The fifth shot is accepted at 17000 and the
    reset button is pressed at 17500; the state is then SETUP with an empty
    history, and the round-completion timer is still queued.  When it
    fires at 18500 the mode becomes ROUND_OVER and the history has one
    round. *)
Lemma stale_finish_timer_fires :
  mode fifth_then_reset = SETUP /\
  history fifth_then_reset = [] /\
  map fst (finishTimers fifth_then_reset) = [18500] /\
  mode (step fifth_then_reset (18500, FinishTimeout)) = ROUND_OVER /\
  map roundNumber (history (step fifth_then_reset (18500, FinishTimeout)))
    = [1] /\
  map totalScore (history (step fifth_then_reset (18500, FinishTimeout)))
    = [50].
Proof. vm_compute. repeat split; reflexivity. Qed.

(** C3: the theorem at the state with four collinear handles. *)
Lemma lockTarget_outcome_witness :
  reachable degenerate /\
  setupType degenerate = MANUAL /\
  mode (lockTarget degenerate) = SHOOT /\
  transformMatrix (lockTarget degenerate) <> None.
Proof.
  pose proof (lockTarget_outcome reachable_degenerate) as [_ H].
  assert (Ht : setupType degenerate = MANUAL) by (vm_compute; reflexivity).
  destruct (H (or_introl Ht)) as (c & _ & Hm & _ & HM).
  refine (conj reachable_degenerate (conj Ht (conj Hm _))).
  rewrite HM. discriminate.
Defined.

(** C3 as stated fails: the four manual handles lie on one line, the
    state is SETUP, and the lock button moves to SHOOT with a matrix. *)
Lemma lock_on_collinear_corners :
  reachable degenerate /\
  mode degenerate = SETUP /\
  (exists a b c d,
     manualPoints degenerate = [a; b; c; d] /\
     collinear a b c /\ collinear a b d /\
     collinear a c d /\ collinear b c d) /\
  mode (step degenerate (20, ClickLock)) = SHOOT /\
  transformMatrix (step degenerate (20, ClickLock)) <> None.
Proof.
  split; [exact reachable_degenerate |].
  split; [vm_compute; reflexivity |].
  split.
  - do 4 eexists. split; [vm_compute; reflexivity |].
    repeat split; vm_compute; reflexivity.
  - split; [vm_compute; reflexivity |].
    vm_compute. intros H. discriminate H.
Qed.


(** C7: the theorem at two shots four seconds apart. *)
Lemma debounce_witness :
  accepted locked 1000 laser20 /\
  accepted (run (processFrame 1000 laser20 locked) (cooldown_ticks 1000))
    5000 laser20 /\
  500 <= 5000 - 1000.
Proof.
  pose proof (@debounce cvq locked 1000 laser20 (cooldown_ticks 1000)
                accepted_first) as H.
  cbv zeta in H. destruct H as [_ H].
  destruct (H 5000 laser20) as [H1 _].
  exact (conj accepted_first (conj accepted_second (H1 accepted_second))).
Defined.

(** C8: the theorem at the same two shots. *)
Lemma cooldown_holds_witness :
  accepted locked 1000 laser20 /\
  accepted (run (processFrame 1000 laser20 locked) (cooldown_ticks 1000))
    5000 laser20 /\
  1000 + 3000 <= 5000.
Proof.
  assert (Hch : chronological 1000 (cooldown_ticks 1000))
    by (vm_compute; repeat split; discriminate).
  assert (Hz : existsb (fun te => zeroes_cooldown (snd te))
                 (cooldown_ticks 1000) = false) by reflexivity.
  assert (Hend : end_time 1000 (cooldown_ticks 1000) <= 5000)
    by (vm_compute; discriminate).
  pose proof (@cooldown_holds cvq locked 1000 laser20 (cooldown_ticks 1000)
                5000 laser20 accepted_first Hch Hz Hend) as H.
  cbv zeta in H. destruct H as [H1 _].
  exact (conj accepted_first (conj accepted_second (H1 accepted_second))).
Defined.

(** C8 as stated fails: a shot is accepted at 1000; the reset button at
    1100 zeroes the cooldown, the lock button at 1200 returns to SHOOT,
    and the frame at 1600 is accepted, 600 ms after the previous shot. *)
Lemma cooldown_cut_short :
  accepted locked 1000 laser20 /\
  accepted
    (run (processFrame 1000 laser20 locked)
       [(1100, ClickReset); (1200, ClickLock)])
    1600 laser20 /\
  1600 - 1000 < 3000.
Proof.
  split; [exact accepted_first |].
  split; [exists (centre_shot 1600); vm_compute; reflexivity |].
  reflexivity.
Qed.

(* ================================================================== *)
(** * Part III. Further properties of the code *)
(* ================================================================== *)

From Stdlib Require Lqa.

(** ** The drawn rings and the score *)

Section RingFacts.
Local Open Scope R_scope.

Lemma Zfloor_le_iff (x : R) (i : Z) : (Zfloor x <= i)%Z <-> x < IZR i + 1.
Proof.
  pose proof (Zfloor_bound x) as [Hlo Hhi]. split.
  - intros H. apply IZR_le in H. lra.
  - intros H. assert (Hlt : (Zfloor x < i + 1)%Z); [| lia].
    apply lt_IZR. rewrite plus_IZR. lra.
Qed.

Lemma score_at_least (tx ty : R) (i : Z) :
  (0 <= i <= 9)%Z ->
  (10 - i <= specScore tx ty)%Z <-> specDist tx ty < 25 * (IZR i + 1).
Proof.
  intros Hi. unfold specScore.
  assert (H0 : (0 <= Zfloor (10 * specDist tx ty / 250))%Z).
  { apply Zfloor_lub. pose proof (specDist_nonneg tx ty). simpl. lra. }
  split.
  - intros H.
    assert (Hf : (Zfloor (10 * specDist tx ty / 250) <= i)%Z) by lia.
    apply Zfloor_le_iff in Hf. lra.
  - intros H.
    assert (Hf : (Zfloor (10 * specDist tx ty / 250) <= i)%Z).
    { apply Zfloor_le_iff. lra. }
    lia.
Qed.

(** X1.  Every ring the board draws bounds exactly the whole-number
    points of the tolerance rectangle that score at least the ring's
    number: such a point scores [ring.score] or more iff its distance
    from the centre is below [ring.radius]. *)
Theorem ring_encloses_score (rg : Ring) (x y : Z) :
  In rg rings ->
  (-20 <= x <= 520)%Z -> (-20 <= y <= 720)%Z ->
  ((ring_score rg <= shotScore (inject_Z x) (inject_Z y))%Z <->
   specDist (IZR x) (IZR y) < IZR (ring_radius rg)).
Proof.
  intros Hin Hx Hy. rewrite (shotScore_grid Hx Hy).
  unfold rings in Hin. apply in_map_iff in Hin as (i & <- & Hi).
  apply in_seq in Hi.
  assert (Hr : ring_radius (ring (Z.of_nat i)) = (25 * (Z.of_nat i + 1))%Z).
  { unfold ring, maxRadius. cbn [ring_radius].
    replace (250 * (Z.of_nat i + 1))%Z with ((25 * (Z.of_nat i + 1)) * 10)%Z
      by lia.
    apply Z.div_mul. lia. }
  rewrite Hr. cbn [ring ring_score].
  rewrite mult_IZR, plus_IZR. apply score_at_least. lia.
Qed.

End RingFacts.

(** ** More on the laser scan *)

Section ScanFacts.
Variables (w : Z) (data : list N).

(** X3.  On a buffer of [w * h] pixels the answer is a pixel of the
    frame: column in [0, w), row in [0, h), and that pixel qualifies. *)
Theorem detectLaser_in_frame (threshold h x y : Z) :
  0 < w ->
  Z.of_nat (length data) = 4 * w * h ->
  detectLaser threshold w data = Some (x, y) ->
  0 <= x < w /\ 0 <= y < h /\ laser_pixel threshold data (y * w + x).
Proof.
  intros Hw Hlen Hd.
  destruct (detectLaser_spec threshold data w)
    as [[HN _] | (p & r & HS & _ & _ & Hlp & _)]; [congruence |].
  rewrite HS in Hd. injection Hd as <- <-.
  pose proof (laser_pixel_range Hlp) as Hrng. rewrite Hlen in Hrng.
  destruct (row_major p Hw) as [Hp Hx].
  assert (Hp0 : 0 <= p) by lia.
  assert (Hpw : p < w * h) by nia.
  split; [exact Hx |]. split.
  - split; [apply Z.div_pos; lia | apply Z.div_lt_upper_bound; lia].
  - rewrite <- Hp. exact Hlp.
Qed.

Lemma sample_byte (i v : Z) :
  Forall (fun b => (b <= 255)%N) data -> sample data i = Some v -> v <= 255.
Proof.
  intros Hb. unfold sample. destruct (i <? 0); [discriminate |].
  destruct (nth_error data (Z.to_nat i)) as [n |] eqn:Hn; [| discriminate].
  intros [= <-]. apply nth_error_In in Hn.
  rewrite Forall_forall in Hb. specialize (Hb n Hn). lia.
Qed.

(** X4.  With the sensitivity slider at its maximum, 255, nothing is
    ever detected: no byte is above the threshold. *)
Theorem detectLaser_blind_at_255 (threshold : Z) :
  Forall (fun b => (b <= 255)%N) data ->
  255 <= threshold ->
  detectLaser threshold w data = None.
Proof.
  intros Hb Ht.
  destruct (detectLaser_spec threshold data w)
    as [[HN _] | (p & r & _ & _ & _ & Hlp & _)]; [exact HN |].
  destruct Hlp as (r' & g & b & Hr & _ & _ & Hgt & _).
  pose proof (sample_byte _ Hb Hr). lia.
Qed.

Lemma laser_pixel_threshold (t t' p : Z) :
  t <= t' -> laser_pixel t' data p -> laser_pixel t data p.
Proof.
  intros Hle (r & g & b & Hr & Hg & Hb & Ht & Hrest).
  exists r, g, b. repeat (split; [assumption |]). split; [lia | exact Hrest].
Qed.

(** X5.  Lowering the threshold never loses a detection: when the scan
    finds a pixel at threshold [t'] it finds one at every [t <= t'], of
    red value at least as great. *)
Theorem detectLaser_threshold_mono (t t' : Z) :
  t <= t' ->
  snd (scan t' data) <> -1 ->
  snd (scan t data) <> -1 /\ fst (scan t' data) <= fst (scan t data).
Proof.
  intros Hle Hfound.
  destruct (scan_scanned t' data) as (i' & Hlen' & Hinv').
  destruct (scan_scanned t data) as (i & Hlen & Hinv).
  destruct Hinv' as [(Hm1 & _) | (Hrng' & Hmod' & Hbest' & _)];
    [congruence |].
  assert (Hmi : snd (scan t' data) = 4 * (snd (scan t' data) / 4)).
  { rewrite Z.mod_divide in Hmod' by lia. destruct Hmod' as [k Hk].
    rewrite Hk. replace (k * 8) with (k * 2 * 4) by lia.
    rewrite Z.div_mul by lia. lia. }
  rewrite Hmi in Hbest'.
  apply hits_laser_pixel in Hbest' as [Hred' Hlp'].
  apply (laser_pixel_threshold Hle) in Hlp'.
  assert (Hhit : hits t data (snd (scan t' data)) (fst (scan t' data))).
  { rewrite Hmi. apply hits_laser_pixel. now split. }
  pose proof (sample_range _ _ (proj1 Hhit)) as [Hin _].
  destruct Hinv as [(_ & _ & Hno) | (Hrng & Hmod & Hbest & Hall)].
  - exfalso.
    apply (Hno (snd (scan t' data)) (fst (scan t' data)));
      [lia | exact Hmod' | exact Hhit].
  - split; [lia |].
    apply (Hall (snd (scan t' data)) (fst (scan t' data)));
      [lia | exact Hmod' | exact Hhit].
Qed.

End ScanFacts.

(** ** The AUTO-setup contour loop *)

Section ContourFacts.
Variables w h : Z.

Lemma contour_step_chosen (done : list Contour) (st : Q * option (list Point))
  (c : Contour) :
  chosen w h done st -> chosen w h (done ++ [c]) (contour_step w h st c).
Proof.
  intros Hch. unfold contour_step.
  destruct (Qltb (inject_Z w * inject_Z h * (2 # 100)) (area c)) eqn:Efloor.
  - apply Qltb_lt in Efloor.
    destruct (length (approx c) =? 4)%nat eqn:Elen.
    + apply Nat.eqb_eq in Elen.
      destruct (Qltb (fst st) (area c)) eqn:Earea.
      * apply Qltb_lt in Earea. right.
        exists done, c, []. split; [reflexivity |].
        destruct Hch as [[-> Hno] | (pre & c0 & post & -> & Hc0 & -> & Hpre & Hpost)].
        -- simpl in Earea. repeat split; try assumption.
           ++ intros c' Hin Hc'. exfalso. exact (Hno c' Hin Hc').
           ++ intros c' [].
        -- simpl in Earea. destruct Hc0 as (_ & Hpos & _).
           repeat split; try assumption.
           ++ Lqa.lra.
           ++ intros c' Hin Hc'. apply in_app_or in Hin as [Hin | [<- | Hin]].
              ** specialize (Hpre c' Hin Hc'). Lqa.lra.
              ** exact Earea.
              ** specialize (Hpost c' Hin Hc'). Lqa.lra.
           ++ intros c' [].
      * apply Qltb_ge in Earea.
        destruct Hch as [[-> Hno] | (pre & c0 & post & -> & Hc0 & -> & Hpre & Hpost)].
        -- left. split; [reflexivity |].
           intros c' Hin Hc'. apply in_app_or in Hin as [Hin | [<- | []]].
           ++ exact (Hno c' Hin Hc').
           ++ destruct Hc' as (_ & Hpos & _). simpl in Earea. Lqa.lra.
        -- right. exists pre, c0, (post ++ [c]).
           split; [now rewrite <- app_assoc |].
           repeat split; try assumption; try apply Hc0.
           intros c' Hin Hc'. apply in_app_or in Hin as [Hin | [<- | []]].
           ++ exact (Hpost c' Hin Hc').
           ++ exact Earea.
    + apply Nat.eqb_neq in Elen.
      destruct Hch as [[-> Hno] | (pre & c0 & post & -> & Hc0 & -> & Hpre & Hpost)].
      * left. split; [reflexivity |].
        intros c' Hin Hc'. apply in_app_or in Hin as [Hin | [<- | []]].
        -- exact (Hno c' Hin Hc').
        -- destruct Hc' as (_ & _ & Hl). contradiction.
      * right. exists pre, c0, (post ++ [c]).
        split; [now rewrite <- app_assoc |].
        repeat split; try assumption; try apply Hc0.
        intros c' Hin Hc'. apply in_app_or in Hin as [Hin | [<- | []]].
        -- exact (Hpost c' Hin Hc').
        -- destruct Hc' as (_ & _ & Hl). contradiction.
  - apply Qltb_ge in Efloor.
    destruct Hch as [[-> Hno] | (pre & c0 & post & -> & Hc0 & -> & Hpre & Hpost)].
    + left. split; [reflexivity |].
      intros c' Hin Hc'. apply in_app_or in Hin as [Hin | [<- | []]].
      * exact (Hno c' Hin Hc').
      * destruct Hc' as (Hfl & _). Lqa.lra.
    + right. exists pre, c0, (post ++ [c]).
      split; [now rewrite <- app_assoc |].
      repeat split; try assumption; try apply Hc0.
      intros c' Hin Hc'. apply in_app_or in Hin as [Hin | [<- | []]].
      * exact (Hpost c' Hin Hc').
      * destruct Hc' as (Hfl & _). Lqa.lra.
Qed.

Lemma fold_chosen (cs done : list Contour) (st : Q * option (list Point)) :
  chosen w h done st -> chosen w h (done ++ cs) (fold_left (contour_step w h) cs st).
Proof.
  revert done st. induction cs as [| c cs IH]; intros done st Hch.
  - rewrite app_nil_r. exact Hch.
  - simpl fold_left.
    replace (done ++ c :: cs) with ((done ++ [c]) ++ cs)
      by (rewrite <- app_assoc; reflexivity).
    apply IH. now apply contour_step_chosen.
Qed.

(** The loop ends in the invariant over all the contours. *)
Lemma bestApprox_chosen (cs : list Contour) :
  chosen w h cs (fold_left (contour_step w h) cs (0%Q, None)).
Proof.
  assert (H0 : chosen w h [] (0%Q, None)).
  { left. split; [reflexivity | intros c []]. }
  exact (fold_chosen cs H0).
Qed.

Lemma bestApprox_four (cs : list Contour) (q : list Point) :
  bestApprox w h cs = Some q -> length q = 4%nat.
Proof.
  unfold bestApprox. intros Hq.
  destruct (bestApprox_chosen cs)
    as [[E _] | (pre & c & post & _ & Hc & E & _)];
    rewrite E in Hq; simpl in Hq; [discriminate |].
  injection Hq as <-. apply Hc.
Qed.

(** X6.  The AUTO-setup loop finds nothing exactly when no contour of
    the frame is a candidate (area above 2% of the canvas, four
    vertices); otherwise it takes the candidate of greatest area, the
    first of them in contour order. *)
Theorem bestApprox_largest (cs : list Contour) :
  match bestApprox w h cs with
  | None => forall c, In c cs -> ~ candidate w h c
  | Some q =>
      exists pre c post,
        cs = pre ++ c :: post /\ candidate w h c /\ q = approx c /\
        length q = 4%nat /\
        (forall c', In c' pre -> candidate w h c' -> (area c' < area c)%Q) /\
        (forall c', In c' post -> candidate w h c' -> (area c' <= area c)%Q)
  end.
Proof.
  unfold bestApprox.
  destruct (bestApprox_chosen cs)
    as [[-> Hno] | (pre & c & post & Hcs & Hc & -> & Hpre & Hpost)].
  - exact Hno.
  - simpl. exists pre, c, post.
    repeat split; try assumption; try apply Hc.
Qed.

End ContourFacts.

(** ** More on the session *)

Section MoreSessionFacts.
Variable cv : CvLib.
Implicit Types s : State cv.

Lemma inBounds_spec (tx ty : Q) : inBounds tx ty = true <-> in_tolerance tx ty.
Proof.
  unfold inBounds, in_tolerance.
  rewrite !andb_true_iff, !Qleb_le. tauto.
Qed.

(** The calibration inputs after [handleShot]. *)
Lemma handleShot_setup now tx ty s :
  same_setup (handleShot now tx ty s) s.
Proof.
  unfold handleShot, setCooldownRemaining, same_setup.
  destruct (now - lastShotTimestamp s <? 500); [split; reflexivity |].
  cbn [cooldownRemaining setLastShotTimestamp].
  destruct (3 =? cooldownRemaining s);
    match goal with
    | |- context [(5 <=? ?n)%nat] => destruct (5 <=? n)%nat
    end; split; reflexivity.
Qed.

(** One frame, in full: the state [s1] after the canvas and calibration
    part agrees with [s] on everything the shooting logic reads; then
    either the gates are open and the frame is one [handleShot] on [s1],
    or they are not and the frame ends in [s1]. *)
Lemma processFrame_decide now fr s :
  exists s1,
    same_core s1 s /\
    ((targetFound s = true -> length (targetQuad s) = 4%nat) ->
     targetFound s1 = true -> length (targetQuad s1) = 4%nat) /\
    ((exists tx ty,
        fires s now fr tx ty /\
        processFrame now fr s = handleShot now tx ty s1)
     \/
     ((forall tx ty, ~ fires s now fr tx ty) /\ processFrame now fr s = s1)).
Proof.
  unfold processFrame.
  set (s0 := if (canvasWidth s =? width fr) && (canvasHeight s =? height fr)
             then s else _).
  assert (H0 : same_core s0 s /\ same_setup s0 s).
  { subst s0.
    destruct ((canvasWidth s =? width fr) && (canvasHeight s =? height fr));
      unfold same_core, same_setup; cbn; repeat split. }
  destruct H0 as [H0 [H0f H0q]].
  set (s1 := match mode s with SETUP => _ | _ => s0 end).
  assert (H1 : same_core s1 s /\
               ((targetFound s = true -> length (targetQuad s) = 4%nat) ->
                targetFound s1 = true -> length (targetQuad s1) = 4%nat)).
  { assert (Hpass : (targetFound s = true -> length (targetQuad s) = 4%nat) ->
                    targetFound s0 = true -> length (targetQuad s0) = 4%nat).
    { rewrite H0f, H0q. auto. }
    subst s1.
    destruct (mode s) eqn:Hm; try (split; [exact H0 | exact Hpass]).
    destruct (setupType s) eqn:Ht; try (split; [exact H0 | exact Hpass]).
    destruct (contours fr) as [cs |]; try (split; [exact H0 | exact Hpass]).
    destruct (bestApprox (width fr) (height fr) cs) as [q |] eqn:Hb.
    - apply bestApprox_four in Hb.
      split; [unfold same_core in *; cbn; tauto |].
      intros _ _. cbn. exact Hb.
    - split; [unfold same_core in *; cbn; tauto |].
      cbn. discriminate. }
  destruct H1 as [H1 H1q].
  exists s1. split; [exact H1 |]. split; [exact H1q |].
  assert (Hnot : forall P : Prop,
             (forall tx ty, fires s now fr tx ty -> P) -> (P -> False) ->
             forall tx ty, ~ fires s now fr tx ty).
  { intros P HP HnP tx ty Hf. exact (HnP (HP tx ty Hf)). }
  destruct (mode s) eqn:Hmode;
    try (right; split; [| reflexivity];
         intros tx ty (Hm & _); congruence).
  destruct (transformMatrix s) as [M |] eqn:HM;
    [| right; split; [| reflexivity];
       intros tx ty (_ & _ & _ & M & x & y & HM' & _); congruence].
  destruct (cooldownRemaining s =? 0) eqn:Hc;
    [apply Z.eqb_eq in Hc
    | right; split; [| reflexivity]; apply Z.eqb_neq in Hc;
      intros tx ty (_ & Hc' & _); congruence].
  destruct (now - lastShotTimestamp s <? 500) eqn:Hd;
    [right; split; [| reflexivity]; apply Z.ltb_lt in Hd;
     intros tx ty (_ & _ & Hd' & _); lia
    | apply Z.ltb_ge in Hd].
  destruct (detectLaser (threshold s) (width fr) (data fr)) as [[x y] |] eqn:Hdet;
    [| right; split; [| reflexivity];
       intros tx ty (_ & _ & _ & M' & x & y & _ & Hdet' & _); congruence].
  destruct (perspectiveTransform cv M x y) as [[tx ty] |] eqn:Hpt;
    [| right; split; [| reflexivity];
       intros tx ty (_ & _ & _ & M' & x' & y' & HM' & Hdet' & Hpt' & _);
       congruence].
  destruct (inBounds tx ty) eqn:Hin.
  - left. exists tx, ty. split; [| reflexivity].
    apply inBounds_spec in Hin.
    repeat split; try assumption.
    exists M, x, y. repeat split; try assumption; apply Hin.
  - right. split; [| reflexivity].
    intros tx' ty' (_ & _ & _ & M' & x' & y' & HM' & Hdet' & Hpt' & Hin').
    assert (tx' = tx /\ ty' = ty) as [-> ->] by (split; congruence).
    apply inBounds_spec in Hin'. congruence.
Qed.


Lemma fires_fun now fr s tx ty tx' ty' :
  fires s now fr tx ty -> fires s now fr tx' ty' -> tx' = tx /\ ty' = ty.
Proof.
  intros (_ & _ & _ & M & x & y & HM & Hd & Hp & _)
         (_ & _ & _ & M' & x' & y' & HM' & Hd' & Hp' & _).
  assert (M' = M) by congruence. subst M'.
  assert (x' = x /\ y' = y) as [-> ->] by (split; congruence).
  split; congruence.
Qed.

(** What a firing frame does to the state. *)
Lemma fires_effect now fr s tx ty :
  fires s now fr tx ty ->
  let s' := processFrame now fr s in
  let updated := currentRoundShots s ++ [shot_of s now tx ty] in
  currentRoundShots s' = updated /\
  lastShotTimestamp s' = now /\
  cooldownRemaining s' = 3 /\
  mode s' = mode s /\ history s' = history s /\
  finishTimers s' =
    (if (5 <=? length updated)%nat
     then finishTimers s ++ [(now + 1500, updated)]
     else finishTimers s) /\
  ((targetFound s = true -> length (targetQuad s) = 4%nat) ->
   targetFound s' = true -> length (targetQuad s') = 4%nat).
Proof.
  intros Hf. cbv zeta.
  destruct (processFrame_decide now fr s) as (s1 & Hcore & Hq & Hcase).
  destruct Hcase as [(tx' & ty' & Hf' & ->) | [Hno _]];
    [| exfalso; exact (Hno tx ty Hf)].
  destruct (fires_fun Hf Hf') as [-> ->].
  destruct Hcore as (C1 & C2 & C3 & C4 & C5 & C6 & C7 & C8 & C9 & C10).
  destruct Hf as (Hm & Hc & Hd & _).
  assert (Hd1 : 500 <= now - lastShotTimestamp s1) by (rewrite C9; exact Hd).
  assert (Hc1 : cooldownRemaining s1 = 0) by (rewrite C6; exact Hc).
  destruct (@handleShot_fires cv now tx ty s1 Hd1 Hc1)
    as (F1 & F2 & F3 & F4 & F5 & F6 & F7 & F8 & F9).
  destruct (handleShot_setup now tx ty s1) as [S1 S2].
  unfold shot_of.
  rewrite F1, F2, F3, F5, F6, F9, C1, C3, C4, C10, S1, S2.
  repeat split. exact Hq.
Qed.

(** X7.  A frame is accepted as a shot exactly when the mode is SHOOT,
    the cooldown counter is zero, at least 500 ms have passed since the
    last accepted shot, the scan finds a pixel, the transform maps it, and
    the mapped point lies in the rectangle [-20, 520] x [-20, 720]; the
    shot recorded is that point with its score.  Any other frame changes
    nothing but the calibration inputs and the canvas size. *)
Theorem frame_acceptance now fr s :
  (accepted s now fr <-> exists tx ty, fires s now fr tx ty) /\
  (forall tx ty,
     fires s now fr tx ty ->
     currentRoundShots (processFrame now fr s) =
       currentRoundShots s ++ [shot_of s now tx ty]) /\
  (~ accepted s now fr -> same_core (processFrame now fr s) s).
Proof.
  destruct (processFrame_decide now fr s) as (s1 & Hcore & _ & Hcase).
  split; [| split].
  - split.
    + intros [sh Hsh].
      destruct Hcase as [(tx & ty & Hf & _) | [_ Heq]]; [now exists tx, ty |].
      rewrite Heq in Hsh.
      destruct Hcore as (_ & _ & C3 & _). rewrite C3 in Hsh.
      symmetry in Hsh. now apply app_one_neq in Hsh.
    + intros (tx & ty & Hf).
      exists (shot_of s now tx ty). apply (fires_effect Hf).
  - intros tx ty Hf. apply (fires_effect Hf).
  - intros Hna.
    destruct Hcase as [(tx & ty & Hf & _) | [_ ->]]; [| exact Hcore].
    exfalso. apply Hna. exists (shot_of s now tx ty). apply (fires_effect Hf).
Qed.


Lemma spaced_snoc (l : list Shot) (b : Shot) :
  spaced l -> Forall (fun a => timestamp a + 500 <= timestamp b) l ->
  spaced (l ++ [b]).
Proof.
  induction l as [| a l IH]; intros Hs Hb; simpl.
  - split; [constructor | exact I].
  - destruct Hs as [Ha Hs]. inversion Hb as [| ? ? Hab Hb']; subst.
    split; [| now apply IH].
    apply Forall_app. split; [exact Ha | now constructor].
Qed.

Lemma shot_of_sound s now tx ty :
  in_tolerance tx ty -> sound_shot (shot_of s now tx ty).
Proof.
  intros Hin. unfold sound_shot, shot_of. cbn.
  split; [exact Hin |]. split; [reflexivity |].
  apply shotScore_range.
Qed.

Lemma sound_state_same s s' :
  currentRoundShots s' = currentRoundShots s ->
  lastShotTimestamp s' = lastShotTimestamp s ->
  finishTimers s' = finishTimers s ->
  history s' = history s ->
  cooldownRemaining s' = cooldownRemaining s ->
  mode s' = mode s ->
  ((targetFound s = true -> length (targetQuad s) = 4%nat) ->
   targetFound s' = true -> length (targetQuad s') = 4%nat) ->
  sound_state s -> sound_state s'.
Proof.
  unfold sound_state. intros -> -> -> -> -> -> Hq.
  intros (H1 & H2 & H3 & H4 & H5 & H6 & H7 & H8).
  repeat (split; [assumption |]). split; [auto | exact H8].
Qed.

Lemma sound_state_cleared s s' :
  currentRoundShots s' = [] ->
  finishTimers s' = finishTimers s ->
  history s' = history s ->
  0 <= cooldownRemaining s' <= 3 ->
  ((targetFound s = true -> length (targetQuad s) = 4%nat) ->
   targetFound s' = true -> length (targetQuad s') = 4%nat) ->
  sound_state s -> sound_state s'.
Proof.
  unfold sound_state. intros -> -> -> Hc Hq.
  intros (H1 & H2 & H3 & H4 & H5 & H6 & H7 & H8).
  split; [constructor |]. split; [exact I |]. split; [constructor |].
  split; [exact H4 |]. split; [exact H5 |]. split; [exact Hc |].
  split; [auto |]. intros _ Hlen. simpl in Hlen. lia.
Qed.

Lemma sound_state_init : sound_state (initialState cv).
Proof.
  unfold sound_state. cbn.
  repeat split; try constructor; try lia; try discriminate.
Qed.

Lemma sound_state_step s te : sound_state s -> sound_state (step s te).
Proof.
  intros Hs. destruct te as [now e]. destruct e; cbn [step].
  - (* AnimationFrame *)
    destruct (processFrame_decide now fr s) as (s1 & Hcore & Hq & Hcase).
    destruct Hcase as [(tx & ty & Hf & _) | [_ ->]].
    + pose proof (fires_effect Hf) as He. cbv zeta in He.
      destruct He as (E1 & E2 & E3 & E4 & E5 & E6 & E7).
      destruct Hf as (Hm & Hc & Hd & M & x & y & _ & _ & _ & Hin).
      destruct Hs as (H1 & H2 & H3 & H4 & H5 & H6 & H7 & H8).
      assert (Hnew : Forall sound_shot
                       (currentRoundShots s ++ [shot_of s now tx ty])).
      { apply Forall_app. split; [exact H1 |].
        constructor; [now apply shot_of_sound | constructor]. }
      unfold sound_state. rewrite E1, E2, E3, E4, E5, E6.
      split; [exact Hnew |]. split.
      { apply spaced_snoc; [exact H2 |].
        eapply Forall_impl; [| exact H3]. intros a Ha.
        unfold shot_of. cbn in Ha |- *. lia. }
      split.
      { apply Forall_app. split.
        - eapply Forall_impl; [| exact H3]. intros a Ha. cbn in Ha |- *. lia.
        - constructor; [unfold shot_of; cbn; lia | constructor]. }
      split.
      { destruct (5 <=? length (currentRoundShots s ++ [shot_of s now tx ty]))%nat
          eqn:E5'; [| exact H4].
        apply Forall_app. split; [exact H4 |].
        constructor; [| constructor]. cbn.
        split; [exact Hnew | now apply Nat.leb_le]. }
      split; [exact H5 |]. split; [lia |]. split; [auto |].
      intros _ Hlen. apply Nat.leb_le in Hlen. rewrite Hlen.
      exists (now + 1500), (finishTimers s). reflexivity.
    + destruct Hcore as (C1 & C2 & C3 & C4 & C5 & C6 & C7 & C8 & C9 & C10).
      now apply (sound_state_same (s := s)).
  - (* CooldownTimeout *)
    unfold cooldownTimer.
    destruct ((0 <? cooldownRemaining s) && (cooldownDue s <=? now)) eqn:E;
      [| exact Hs].
    apply andb_prop in E as [Epos _]. apply Z.ltb_lt in Epos.
    unfold setCooldownRemaining.
    destruct (cooldownRemaining s - 1 =? cooldownRemaining s); [exact Hs |].
    destruct Hs as (H1 & H2 & H3 & H4 & H5 & H6 & H7 & H8).
    unfold sound_state. cbn.
    repeat (split; [assumption |]). split; [lia |]. split; assumption.
  - (* FinishTimeout *)
    destruct (finishTimer_cases now s)
      as [-> | (due & updated & rest & Ht & _ & ->)]; [exact Hs |].
    destruct Hs as (H1 & H2 & H3 & H4 & H5 & H6 & H7 & H8).
    rewrite Ht in H4. inversion H4 as [| ? ? [Hu Hlen] Hrest]; subst.
    unfold sound_state. cbn.
    repeat (split; [assumption |]).
    split.
    { constructor; [| exact H5]. unfold sound_round. cbn.
      split; [exact Hu |]. split; [exact Hlen |].
      rewrite fold_score_sum. lia. }
    split; [exact H6 |]. split; [exact H7 |]. discriminate.
  - (* ClickLock *)
    destruct (AppMode_eqb (mode s) SETUP); [| exact Hs].
    unfold lockTarget.
    destruct (match setupType s with
              | AUTO => _ | MANUAL => _ end) as [q |]; [| exact Hs].
    destruct (orderCorners q); [| exact Hs].
    apply (sound_state_cleared (s := s)); try reflexivity; auto.
    apply Hs.
  - (* ClickNextRound *)
    destruct (AppMode_eqb (mode s) ROUND_OVER); [| exact Hs].
    destruct (startNewRound_fields now s)
      as (_ & E2 & _ & _ & E5 & E6 & _ & E8).
    apply (sound_state_cleared (s := s)); try assumption; [lia |].
    unfold startNewRound, setCooldownRemaining.
    destruct (0 =? _); cbn; auto.
  - (* ClickReset *)
    destruct (AppMode_eqb (mode s) SETUP); [exact Hs |].
    destruct (resetToSetup_fields now s)
      as (_ & E2 & _ & _ & E5 & E6 & E7 & _ & E9).
    apply (sound_state_cleared (s := s)); try assumption; [lia |].
    rewrite E7. discriminate.
  - (* ClickSetupType *)
    destruct (AppMode_eqb (mode s) SETUP); [| exact Hs].
    apply (sound_state_same (s := s)); try reflexivity; auto.
  - (* SlideThreshold *)
    destruct (AppMode_eqb (mode s) SETUP); [| exact Hs].
    apply (sound_state_same (s := s)); try reflexivity; auto.
  - (* PointerDown *)
    unfold handlePointerDown.
    destruct (mode s) eqn:Hm, (setupType s) eqn:Ht; try exact Hs.
    destruct (findIndex (hit x y hitRadius) (manualPoints s)); [| exact Hs].
    apply (sound_state_same (s := s)); try reflexivity; auto.
  - (* PointerMove *)
    unfold handlePointerMove. destruct (draggingIdx s); [| exact Hs].
    apply (sound_state_same (s := s)); try reflexivity; auto.
  - (* PointerUp *)
    apply (sound_state_same (s := s)); try reflexivity; auto.
Qed.

Lemma reachable_sound s : reachable s -> sound_state s.
Proof.
  apply reachable_invariant; [apply sound_state_init |].
  intros s0 te. apply sound_state_step.
Qed.


Lemma sum_scores_bounds (l : list Shot) :
  Forall sound_shot l -> 0 <= sum_scores l <= 10 * Z.of_nat (length l).
Proof.
  induction 1 as [| sh l (_ & _ & Hsh) _ IH]; simpl sum_scores.
  - simpl. lia.
  - rewrite length_cons, Nat2Z.inj_succ. lia.
Qed.

(** X8.  In every reachable state the shots of the round in progress
    lie in the tolerance rectangle, carry the score of their point
    (between 0 and 10), and follow each other in time at least 500 ms
    apart. *)
Theorem round_in_progress_sound s :
  reachable s ->
  Forall sound_shot (currentRoundShots s) /\ spaced (currentRoundShots s).
Proof.
  intros Hr. apply reachable_sound in Hr as (H1 & H2 & _). now split.
Qed.

(** X9.  In every reachable state each round of the history holds at
    least five shots, each of them sound, and its total is the sum of
    their scores, between 0 and ten times their number. *)
Theorem history_rounds_sound s (e : RoundHistory) :
  reachable s ->
  In e (history s) ->
  (5 <= length (shots e))%nat /\
  Forall sound_shot (shots e) /\
  totalScore e = sum_scores (shots e) /\
  0 <= totalScore e <= 10 * Z.of_nat (length (shots e)).
Proof.
  intros Hr Hin.
  apply reachable_sound in Hr as (_ & _ & _ & _ & H5 & _).
  rewrite Forall_forall in H5. destruct (H5 e Hin) as (Hs & Hl & Ht).
  repeat (split; [assumption |]). rewrite Ht. now apply sum_scores_bounds.
Qed.

(** X10.  In SHOOT mode a round of five or more shots always has its
    completion timer pending, and the newest pending timer holds exactly
    the shots of the round in progress. *)
Theorem full_round_awaits_timer s :
  reachable s ->
  mode s = SHOOT ->
  (5 <= length (currentRoundShots s))%nat ->
  exists due rest, finishTimers s = rest ++ [(due, currentRoundShots s)].
Proof.
  intros Hr. apply reachable_sound in Hr.
  destruct Hr as (_ & _ & _ & _ & _ & _ & _ & H8). exact H8.
Qed.

(** X11.  The cooldown counter is always 0, 1, 2 or 3; while it is
    positive a timeout before the timer is due changes nothing, and a
    due timeout takes one off. *)
Theorem cooldown_counter s now :
  reachable s ->
  0 <= cooldownRemaining s <= 3 /\
  (now < cooldownDue s -> cooldownTimer now s = s) /\
  (0 < cooldownRemaining s -> cooldownDue s <= now ->
   cooldownRemaining (cooldownTimer now s) = cooldownRemaining s - 1 /\
   (0 < cooldownRemaining s - 1 ->
    cooldownDue (cooldownTimer now s) = now + 1000)).
Proof.
  intros Hr. apply reachable_sound in Hr.
  destruct Hr as (_ & _ & _ & _ & _ & H6 & _).
  split; [exact H6 |]. split.
  - intros Hearly. unfold cooldownTimer.
    destruct (cooldownDue s <=? now) eqn:E; [apply Z.leb_le in E; lia |].
    now rewrite andb_false_r.
  - intros Hpos Hdue. unfold cooldownTimer, setCooldownRemaining.
    apply Z.ltb_lt in Hpos. apply Z.leb_le in Hdue. rewrite Hpos, Hdue.
    cbn [andb].
    destruct (cooldownRemaining s - 1 =? cooldownRemaining s) eqn:E;
      [apply Z.eqb_eq in E; lia |].
    cbn [cooldownRemaining cooldownDue]. split; [reflexivity |].
    intros Hgt. apply Z.ltb_lt in Hgt. now rewrite Hgt.
Qed.

(** X12.  Whenever the lock button is enabled (SETUP, and either MANUAL
    corners or a found target), pressing it moves to SHOOT with a
    transform matrix and an empty round, and leaves the history alone. *)
Theorem lock_button_locks s now :
  reachable s ->
  lockEnabled s = true ->
  let s' := step s (now, ClickLock) in
  mode s' = SHOOT /\ transformMatrix s' <> None /\
  currentRoundShots s' = [] /\ history s' = history s.
Proof.
  intros Hr Hen. cbv zeta. cbn [step].
  unfold lockEnabled in Hen. apply andb_prop in Hen as [Hm Hen].
  rewrite Hm.
  pose proof (reachable_well_formed Hr) as (_ & W2 & _).
  pose proof (reachable_sound Hr) as (_ & _ & _ & _ & _ & _ & H7 & _).
  set (q := match setupType s with
            | AUTO => targetQuad s | MANUAL => manualPoints s end).
  assert (Hq : (setupType s = MANUAL /\ q = manualPoints s) \/
               (setupType s = AUTO /\ targetFound s = true /\
                length (targetQuad s) = 4%nat /\ q = targetQuad s)).
  { subst q. destruct (setupType s).
    - right. apply negb_true_iff, negb_false_iff in Hen. auto.
    - left. auto. }
  assert (Hne : q <> []).
  { destruct Hq as [[_ ->] | (_ & _ & Hl & ->)]; intros E; rewrite E in *;
      discriminate. }
  destruct (orderCorners_some Hne) as [c Hc].
  rewrite (@lockTarget_locks cv s q c Hq Hc). cbn.
  repeat split. discriminate.
Qed.

(** X13.  Whenever READY TO FIRE is displayed there is a transform
    matrix, and a frame whose brightest qualifying pixel maps into the
    tolerance rectangle is accepted as soon as 500 ms have passed since
    the last accepted shot. *)
Theorem ready_to_fire_accepts s :
  reachable s ->
  readyToFire s = true ->
  exists M,
    transformMatrix s = Some M /\
    forall now fr x y tx ty,
      500 <= now - lastShotTimestamp s ->
      detectLaser (threshold s) (width fr) (data fr) = Some (x, y) ->
      perspectiveTransform cv M x y = Some (tx, ty) ->
      in_tolerance tx ty ->
      accepted s now fr /\
      length (currentRoundShots (processFrame now fr s)) =
        S (length (currentRoundShots s)).
Proof.
  intros Hr Hready. unfold readyToFire in Hready.
  apply andb_prop in Hready as [Hready _].
  apply andb_prop in Hready as [Hm Hc].
  apply AppMode_eqb_eq in Hm. apply Z.eqb_eq in Hc.
  pose proof (reachable_well_formed Hr) as (W1 & _).
  destruct (transformMatrix s) as [M |] eqn:HM;
    [| destruct (W1 eq_refl) as [Hs _]; congruence].
  exists M. split; [reflexivity |].
  intros now fr x y tx ty Hd Hdet Hpt Hin.
  assert (Hf : fires s now fr tx ty).
  { repeat split; try assumption. exists M, x, y. repeat split; try assumption;
      apply Hin. }
  pose proof (fires_effect Hf) as He. cbv zeta in He.
  destruct He as (E1 & _).
  split.
  - exists (shot_of s now tx ty). exact E1.
  - rewrite E1, length_app. simpl. lia.
Qed.


(** X14.  When the only pending completion timer of a full round fires,
    the overlay's Final Score is the Total Score of the round on
    display. *)
Theorem final_score_is_round_total s now due (l : list Shot) :
  reachable s ->
  mode s = SHOOT ->
  (5 <= length (currentRoundShots s))%nat ->
  finishTimers s = [(due, l)] ->
  due <= now ->
  let s' := step s (now, FinishTimeout) in
  mode s' = ROUND_OVER /\
  currentRoundShots s' = currentRoundShots s /\
  displayedFinal s' = Some (displayedTotal s').
Proof.
  intros Hr Hm H5 Ht Hdue. cbv zeta. cbn [step].
  pose proof (reachable_sound Hr) as (_ & _ & _ & _ & _ & _ & _ & H8).
  destruct (H8 Hm H5) as (due' & rest & Hq). rewrite Ht in Hq.
  assert (Hl : l = currentRoundShots s).
  { destruct rest as [| t rest].
    - simpl in Hq. congruence.
    - apply (f_equal (@length _)) in Hq. simpl in Hq.
      rewrite length_app in Hq. simpl in Hq. lia. }
  unfold finishTimer. rewrite Ht.
  apply Z.leb_le in Hdue. rewrite Hdue.
  unfold displayedFinal, displayedTotal. cbn. rewrite Hl. repeat split.
Qed.

(** ** The manual handles *)

Lemma findIndex_spec (A : Type) (f : A -> bool) (l : list A) :
  match findIndex f l with
  | Some i =>
      exists p, nth_error l i = Some p /\ f p = true /\
                forall j q, (j < i)%nat -> nth_error l j = Some q -> f q = false
  | None => forall p, In p l -> f p = false
  end.
Proof.
  induction l as [| h t IH]; simpl.
  - intros p [].
  - destruct (f h) eqn:Eh.
    + exists h. repeat split; [exact Eh |]. intros j q Hj. lia.
    + destruct (findIndex f t) as [i |]; simpl.
      * destruct IH as (p & Hp & Hfp & Hfirst).
        exists p. repeat split; try assumption.
        intros [| j] q Hj Hq; simpl in Hq.
        -- congruence.
        -- apply (Hfirst j q); [lia | exact Hq].
      * intros p [<- | Hin]; [exact Eh | now apply IH].
Qed.


Lemma set_nth_same (A : Type) (i : nat) (v : A) (l : list A) :
  (i < length l)%nat -> nth_error (set_nth i v l) i = Some v.
Proof.
  revert i. induction l as [| h t IH]; intros [| i] Hi; simpl in *;
    try lia; [reflexivity | apply IH; lia].
Qed.

Lemma set_nth_other (A : Type) (i j : nat) (v : A) (l : list A) :
  i <> j -> nth_error (set_nth i v l) j = nth_error l j.
Proof.
  revert i j. induction l as [| h t IH]; intros [| i] [| j] Hij; simpl;
    try reflexivity; try congruence.
  apply IH. congruence.
Qed.

Lemma clamp_range (lim v : Q) :
  (0 <= lim)%Q ->
  (0 <= Qmax 0 (Qmin lim v) /\ Qmax 0 (Qmin lim v) <= lim)%Q /\
  ((0 <= v /\ v <= lim)%Q -> (Qmax 0 (Qmin lim v) == v)%Q).
Proof.
  intros Hlim. unfold Qmax, Qmin.
  destruct (Qltb v lim) eqn:E1;
    [apply Qltb_lt in E1 | apply Qltb_ge in E1];
    match goal with
    | |- context [Qltb 0 ?z] =>
        destruct (Qltb 0 z) eqn:E2;
        [apply Qltb_lt in E2 | apply Qltb_ge in E2]
    end;
    (split; [split; Lqa.lra | intros [H1 H2]; Lqa.lra]).
Qed.

Lemma reachable_invariant_strong (P : State cv -> Prop) :
  P (initialState cv) ->
  (forall s te, reachable s -> P s -> P (step s te)) ->
  forall s, reachable s -> P s.
Proof.
  intros Hinit Hstep s Hr.
  enough (H : reachable s /\ P s) by apply H.
  revert s Hr.
  apply (reachable_invariant (fun s => reachable s /\ P s)).
  - split; [apply reachable_init | exact Hinit].
  - intros s te [Hr HP]. split; [now apply reachable_step | now apply Hstep].
Qed.

Ltac break_all :=
  repeat match goal with
         | |- context [match ?x with _ => _ end] => destruct x
         end.

(** Only the pointer handlers touch [draggingIdx]. *)
Lemma draggingIdx_step s now e :
  match e with
  | PointerDown _ _ _ | PointerMove _ _ | PointerUp => True
  | _ => draggingIdx (step s (now, e)) = draggingIdx s
  end.
Proof.
  destruct e; cbn [step]; try exact I.
  - unfold processFrame, handleShot, setCooldownRemaining. break_all; reflexivity.
  - unfold cooldownTimer, setCooldownRemaining. break_all; reflexivity.
  - unfold finishTimer. break_all; reflexivity.
  - unfold lockTarget. break_all; reflexivity.
  - unfold startNewRound, setCooldownRemaining. break_all; reflexivity.
  - unfold resetToSetup, setCooldownRemaining. break_all; reflexivity.
  - break_all; reflexivity.
  - break_all; reflexivity.
Qed.

(** The handle being dragged is one of the four. *)
Lemma dragging_in_range s (i : nat) :
  reachable s -> draggingIdx s = Some i -> (i < length (manualPoints s))%nat.
Proof.
  intros Hr Hi.
  pose proof (reachable_well_formed Hr) as (_ & W2 & _). rewrite W2.
  revert i Hi. revert s Hr W2.
  enough (H : forall s, reachable s ->
                forall i, draggingIdx s = Some i -> (i < 4)%nat)
    by (intros s Hr _; now apply H).
  apply (reachable_invariant_strong
           (fun s => forall i, draggingIdx s = Some i -> (i < 4)%nat)).
  - cbn. discriminate.
  - intros s [now e] Hr IH i.
    pose proof (reachable_well_formed Hr) as (_ & W2 & _).
    pose proof (draggingIdx_step s now e) as Hd.
    destruct e; try (rewrite Hd; apply IH); cbn [step].
    + unfold handlePointerDown.
      destruct (mode s), (setupType s); try apply IH.
      pose proof (findIndex_spec (hit x y hitRadius) (manualPoints s)) as Hf.
      destruct (findIndex (hit x y hitRadius) (manualPoints s)) as [j |];
        [| apply IH].
      destruct Hf as (p & Hp & _). cbn. intros [= <-].
      rewrite <- W2. apply nth_error_Some. congruence.
    + unfold handlePointerMove.
      destruct (draggingIdx s) eqn:E; [| rewrite E; discriminate].
      cbn. rewrite E. apply IH.
    + cbn. discriminate.
Qed.

(** X16.  While a handle is being dragged, a pointer move puts that
    handle at the pointer, clamped to the canvas, leaves the other three
    where they are, and touches nothing else of the session: every
    other field of the state, the drag itself included, is as before. *)
Theorem pointer_move_drags s (x y : Q) (i : nat) :
  reachable s ->
  draggingIdx s = Some i ->
  0 <= canvasWidth s -> 0 <= canvasHeight s ->
  let s' := handlePointerMove x y s in
  let w := inject_Z (canvasWidth s) in
  let h := inject_Z (canvasHeight s) in
  only_handles s' s /\
  length (manualPoints s') = length (manualPoints s) /\
  (forall j, j <> i ->
     nth_error (manualPoints s') j = nth_error (manualPoints s) j) /\
  exists p,
    nth_error (manualPoints s') i = Some p /\
    (0 <= px p /\ px p <= w /\ 0 <= py p /\ py p <= h)%Q /\
    ((0 <= x /\ x <= w)%Q -> (px p == x)%Q) /\
    ((0 <= y /\ y <= h)%Q -> (py p == y)%Q).
Proof.
  intros Hr Hi Hw Hh. cbv zeta.
  pose proof (dragging_in_range Hr Hi) as Hlt.
  unfold handlePointerMove. rewrite Hi.
  cbn [manualPoints setManualPoints].
  split; [unfold only_handles; cbn; repeat split |].
  split; [apply set_nth_length |].
  split; [intros j Hj; apply set_nth_other; congruence |].
  eexists. split; [apply set_nth_same; exact Hlt |].
  cbn [px py].
  assert (Hw' : (0 <= inject_Z (canvasWidth s))%Q)
    by (unfold Qle; simpl; lia).
  assert (Hh' : (0 <= inject_Z (canvasHeight s))%Q)
    by (unfold Qle; simpl; lia).
  destruct (clamp_range x Hw') as [[A1 A2] A3].
  destruct (clamp_range y Hh') as [[B1 B2] B3].
  repeat split; assumption.
Qed.


(** X17.  AUTO setup keeps no memory between frames: after a frame,
    [targetFound] says whether this frame has a candidate contour, and
    then [targetQuad] is the approximation of one of greatest area;
    without a candidate [targetQuad] keeps its old value. *)
Theorem auto_setup_frame s now fr (cs : list Contour) :
  mode s = SETUP -> setupType s = AUTO -> contours fr = Some cs ->
  let s' := processFrame now fr s in
  (targetFound s' = true <->
   exists c, In c cs /\ candidate (width fr) (height fr) c) /\
  (targetFound s' = true ->
   exists c, In c cs /\ candidate (width fr) (height fr) c /\
             targetQuad s' = approx c /\
             forall c', In c' cs -> candidate (width fr) (height fr) c' ->
                        (area c' <= area c)%Q) /\
  (targetFound s' = false -> targetQuad s' = targetQuad s).
Proof.
  intros Hm Ht Hc. cbv zeta. unfold processFrame.
  rewrite Hm, Ht, Hc. cbv beta iota zeta.
  set (s0 := if (canvasWidth s =? width fr) && (canvasHeight s =? height fr)
             then s else _).
  assert (H0 : targetQuad s0 = targetQuad s).
  { subst s0.
    destruct ((canvasWidth s =? width fr) && (canvasHeight s =? height fr));
      reflexivity. }
  unfold bestApprox.
  destruct (bestApprox_chosen (width fr) (height fr) cs)
    as [[-> Hno] | (pre & c & post & Hcs & Hcand & -> & Hpre & Hpost)];
    cbn.
  - split; [| split]; try discriminate.
    + split; [discriminate |]. intros (c & Hin & Hcd). exfalso.
      exact (Hno c Hin Hcd).
    + intros _. exact H0.
  - assert (Hin : In c cs) by (rewrite Hcs; apply in_elt).
    split; [| split]; try discriminate.
    + split; [| reflexivity]. intros _. now exists c.
    + intros _. exists c.
      split; [exact Hin |]. split; [exact Hcand |]. split; [reflexivity |].
      intros c' Hin' Hc'. rewrite Hcs in Hin'.
      apply in_app_or in Hin' as [Hp | [<- | Hp]].
      * apply Qlt_le_weak. now apply Hpre.
      * apply Qle_refl.
      * now apply Hpost.
Qed.

End MoreSessionFacts.

(** ** Concrete instances of the further properties *)

Lemma reachable_after_five : reachable after_five.
Proof. apply reachable_run. exact reachable_after_four. Qed.

Lemma reachable_sealed : reachable sealed.
Proof. apply reachable_run. exact reachable_after_five. Qed.

Lemma reachable_after_first : reachable after_first.
Proof. apply reachable_run. exact reachable_locked. Qed.

Lemma reachable_manual_setup : reachable manual_setup.
Proof. apply reachable_run. apply reachable_init. Qed.

Lemma reachable_grabbed : reachable grabbed.
Proof. apply reachable_run. exact reachable_manual_setup. Qed.

(** X1 at the ring numbered 7 and the point 50 units below the centre. *)
Lemma ring_encloses_score_witness :
  In (mkRing 7 100) rings /\
  ((7 <= shotScore (inject_Z 250) (inject_Z 400))%Z <->
   (specDist (IZR 250) (IZR 400) < 100)%R).
Proof.
  assert (Hin : In (mkRing 7 100) rings) by (vm_compute; tauto).
  exact (conj Hin
           (@ring_encloses_score (mkRing 7 100) 250 400 Hin
              ltac:(lia) ltac:(lia))).
Defined.

(** X3 on the 20 x 20 frame with the lit pixel. *)
Lemma detectLaser_in_frame_witness :
  detectLaser 200 20 (data laser20) = Some (10, 10) /\
  0 <= 10 < 20 /\ 0 <= 10 < 20 /\
  laser_pixel 200 (data laser20) (10 * 20 + 10).
Proof.
  assert (Hd : detectLaser 200 20 (data laser20) = Some (10, 10))
    by (vm_compute; reflexivity).
  refine (conj Hd (@detectLaser_in_frame 20 (data laser20) 200 20 10 10 _ _ Hd)).
  - reflexivity.
  - vm_compute. reflexivity.
Defined.

Lemma tie_row_bytes : Forall (fun b => (b <= 255)%N) tie_row.
Proof.
  unfold tie_row, pixel. simpl app.
  repeat (constructor; [vm_compute; discriminate |]). constructor.
Qed.

(** X4 on the row with three bright pixels. *)
Lemma detectLaser_blind_at_255_witness :
  detectLaser 200 4 tie_row = Some (0, 0) /\
  detectLaser 255 4 tie_row = None.
Proof.
  split; [reflexivity |].
  apply detectLaser_blind_at_255; [exact tie_row_bytes | lia].
Defined.

(** X5 on the same row, thresholds 200 and 240. *)
Lemma detectLaser_threshold_mono_witness :
  snd (scan 240 tie_row) <> -1 /\
  snd (scan 200 tie_row) <> -1 /\
  fst (scan 240 tie_row) <= fst (scan 200 tie_row).
Proof.
  assert (H : snd (scan 240 tie_row) <> -1) by (vm_compute; discriminate).
  refine (conj H (@detectLaser_threshold_mono tie_row 200 240 _ H)). lia.
Defined.

(** X8 after four shots. *)
Lemma round_in_progress_sound_witness :
  length (currentRoundShots after_four) = 4%nat /\
  Forall sound_shot (currentRoundShots after_four) /\
  spaced (currentRoundShots after_four).
Proof.
  split; [vm_compute; reflexivity |].
  exact (round_in_progress_sound reachable_after_four).
Defined.

Lemma sealed_entry_in : In sealed_entry (history sealed).
Proof. vm_compute. left. reflexivity. Qed.

(** X9 on the round sealed after five centre shots. *)
Lemma history_rounds_sound_witness :
  In sealed_entry (history sealed) /\
  (5 <= length (shots sealed_entry))%nat /\
  Forall sound_shot (shots sealed_entry) /\
  totalScore sealed_entry = sum_scores (shots sealed_entry) /\
  0 <= totalScore sealed_entry <= 10 * Z.of_nat (length (shots sealed_entry)).
Proof.
  exact (conj sealed_entry_in
           (history_rounds_sound sealed_entry reachable_sealed sealed_entry_in)).
Defined.

(** X10 after the fifth shot. *)
Lemma full_round_awaits_timer_witness :
  mode after_five = SHOOT /\
  exists due rest,
    finishTimers after_five = rest ++ [(due, currentRoundShots after_five)].
Proof.
  assert (Hm : mode after_five = SHOOT) by (vm_compute; reflexivity).
  refine (conj Hm (full_round_awaits_timer reachable_after_five Hm _)).
  vm_compute. repeat constructor.
Defined.

(** X11 right after the first shot: the tick at 1500 is early, the tick
    at 2000 takes the counter from 3 to 2. *)
Lemma cooldown_counter_witness :
  cooldownRemaining after_first = 3 /\
  cooldownTimer 1500 after_first = after_first /\
  cooldownRemaining (cooldownTimer 2000 after_first) = 3 - 1.
Proof.
  assert (H3 : cooldownRemaining after_first = 3) by (vm_compute; reflexivity).
  assert (Hdue : cooldownDue after_first = 2000) by (vm_compute; reflexivity).
  pose proof (cooldown_counter 1500 reachable_after_first) as (_ & Hearly & _).
  pose proof (cooldown_counter 2000 reachable_after_first) as (_ & _ & Htick).
  split; [exact H3 |]. split.
  - apply Hearly. rewrite Hdue. lia.
  - destruct Htick as [E _]; [rewrite H3; lia | rewrite Hdue; lia |].
    rewrite E, H3. reflexivity.
Defined.

(** X12 in MANUAL setup. *)
Lemma lock_button_locks_witness :
  lockEnabled manual_setup = true /\
  mode (step manual_setup (20, ClickLock)) = SHOOT /\
  transformMatrix (step manual_setup (20, ClickLock)) <> None.
Proof.
  assert (He : lockEnabled manual_setup = true) by (vm_compute; reflexivity).
  pose proof (lock_button_locks 20 reachable_manual_setup He) as H.
  cbv zeta in H. destruct H as (H1 & H2 & _).
  exact (conj He (conj H1 H2)).
Defined.

(** X13 at the calibrated state. *)
Lemma ready_to_fire_accepts_witness :
  readyToFire locked = true /\ accepted locked 1000 laser20.
Proof.
  assert (Hready : readyToFire locked = true) by (vm_compute; reflexivity).
  split; [exact Hready |].
  destruct (ready_to_fire_accepts reachable_locked Hready) as (M & HM & H).
  assert (HM' : transformMatrix locked =
                Some (getPerspectiveTransform cvq
                        [4; 4; 16; 4; 16; 16; 4; 16]%Q
                        [0; 0; 500; 0; 500; 700; 0; 700]%Q)).
  { vm_compute. reflexivity. }
  apply (H 1000 laser20 10 10 250%Q 350%Q).
  - vm_compute. discriminate.
  - vm_compute. reflexivity.
  - rewrite HM' in HM. injection HM as <-. vm_compute. reflexivity.
  - unfold in_tolerance. repeat split; discriminate.
Defined.

(** X14 at the fifth shot of the first round. *)
Lemma final_score_is_round_total_witness :
  finishTimers after_five = [(18500, currentRoundShots after_five)] /\
  mode (step after_five (18500, FinishTimeout)) = ROUND_OVER /\
  displayedFinal (step after_five (18500, FinishTimeout)) =
    Some (displayedTotal (step after_five (18500, FinishTimeout))).
Proof.
  assert (Hm : mode after_five = SHOOT) by (vm_compute; reflexivity).
  assert (H5 : (5 <= length (currentRoundShots after_five))%nat)
    by (vm_compute; repeat constructor).
  assert (Ht : finishTimers after_five =
               [(18500, currentRoundShots after_five)])
    by (vm_compute; reflexivity).
  pose proof (@final_score_is_round_total cvq after_five 18500 18500 _
                reachable_after_five Hm H5 Ht (Z.le_refl _)) as H.
  cbv zeta in H. destruct H as (H1 & _ & H3).
  exact (conj Ht (conj H1 H3)).
Defined.

(** X16 with the second handle grabbed and the pointer at (8, 8). *)
Lemma pointer_move_drags_witness :
  draggingIdx grabbed = Some 1%nat /\
  only_handles (handlePointerMove 8 8 grabbed) grabbed /\
  draggingIdx (handlePointerMove 8 8 grabbed) = Some 1%nat /\
  nth_error (manualPoints (handlePointerMove 8 8 grabbed)) 0 =
    nth_error (manualPoints grabbed) 0.
Proof.
  assert (Hi : draggingIdx grabbed = Some 1%nat) by (vm_compute; reflexivity).
  assert (Hw : 0 <= canvasWidth grabbed) by (vm_compute; discriminate).
  assert (Hh : 0 <= canvasHeight grabbed) by (vm_compute; discriminate).
  pose proof (pointer_move_drags 8 8 reachable_grabbed Hi Hw Hh) as H.
  cbv zeta in H. destruct H as (H1 & _ & H2 & _).
  assert (Hd : draggingIdx (handlePointerMove 8 8 grabbed) = Some 1%nat).
  { destruct H1 as (_ & _ & _ & _ & _ & _ & _ & _ & Hd & _).
    rewrite Hd. exact Hi. }
  exact (conj Hi (conj H1 (conj Hd (H2 0%nat ltac:(discriminate))))).
Defined.

(** X17 on the first frame of a session. *)
Lemma auto_setup_frame_witness :
  targetFound (processFrame 0 contour_frame (initialState cvq)) = true /\
  exists c,
    In c [small_quad; triangle; large_quad] /\
    candidate 20 20 c /\
    targetQuad (processFrame 0 contour_frame (initialState cvq)) = approx c /\
    forall c', In c' [small_quad; triangle; large_quad] ->
               candidate 20 20 c' -> (area c' <= area c)%Q.
Proof.
  assert (Hf : targetFound (processFrame 0 contour_frame (initialState cvq))
               = true) by (vm_compute; reflexivity).
  pose proof (@auto_setup_frame cvq (initialState cvq) 0 contour_frame
                [small_quad; triangle; large_quad]
                eq_refl eq_refl eq_refl) as H.
  cbv zeta in H. destruct H as (_ & H & _).
  exact (conj Hf (H Hf)).
Defined.
